(** * Word-search generator: the placement engine of [gen/word-search-gen.py]

    A shallow embedding of the generator's core (board, direction set,
    placement checker, placement engine, filler) and the properties of it
    that the design document states.

    Python integers are unbounded, so they are [Z]; a board cell is
    [str | None] where the string is one character, so it is
    [option ascii]; a raised exception is the [Err] branch of [result]. *)

From Stdlib Require Import ZArith Ascii.
From Stdlib Require String.
From stdpp Require Import base tactics option list numbers strings gmap.

Local Open Scope Z_scope.

(** ** Exceptions and the error monad *)

(** The only exception the modelled functions can raise: list indexing out
    of range, [list.pop] on an empty list and [random.choice] on an empty
    sequence all raise [IndexError]. *)
Inductive exn : Set :=
  | IndexError.

Inductive result (A : Type) : Type :=
  | Ok (a : A)
  | Err (e : exn).
Arguments Ok {A} a.
Arguments Err {A} e.

#[global] Instance result_ret : MRet result := λ A a, Ok a.
#[global] Instance result_bind : MBind result := λ A B k m,
  match m with
  | Ok a => k a
  | Err e => Err e
  end.

(** ** Python list operations *)

(** [l[i]] accepts [-len(l) <= i < len(l)]; a negative index counts from
    the end. *)
Definition py_index (len : nat) (i : Z) : option nat :=
  if bool_decide (0 ≤ i < Z.of_nat len) then Some (Z.to_nat i)
  else if bool_decide (- Z.of_nat len ≤ i < 0) then Some (Z.to_nat (Z.of_nat len + i))
  else None.

Definition getitem {A} (l : list A) (i : Z) : result A :=
  match py_index (length l) i with
  | Some k => match l !! k with Some x => Ok x | None => Err IndexError end
  | None => Err IndexError
  end.

Definition setitem {A} (l : list A) (i : Z) (x : A) : result (list A) :=
  match py_index (length l) i with
  | Some k => Ok (<[k:=x]> l)
  | None => Err IndexError
  end.

(** [l.pop()]: removes and returns the last item. *)
Definition list_pop {A} (l : list A) : result (A * list A) :=
  match last l with
  | Some x => Ok (x, removelast l)
  | None => Err IndexError
  end.

(** [range(a, b)] and [itertools.product(l1, l2)] (the rightmost index
    advances fastest). *)
Definition range (a b : Z) : list Z := seqZ a (b - a).

Definition product {A B} (l1 : list A) (l2 : list B) : list (A * B) :=
  x ← l1; y ← l2; [(x, y)].

(** [str.upper] on the ASCII range. *)
Definition upper_char (c : ascii) : ascii :=
  let n := N_of_ascii c in
  if bool_decide (97 ≤ n ≤ 122)%N then ascii_of_N (n - 32) else c.

Fixpoint upper (s : string) : string :=
  match s with
  | EmptyString => EmptyString
  | String c s' => String (upper_char c) (upper s')
  end.

(** [chr] on code points below 256. *)
Definition chr (n : Z) : ascii := ascii_of_N (Z.to_N n).
Definition ord (c : ascii) : Z := Z.of_N (N_of_ascii c).

(** ** Data model *)

(** The type aliases of the source. *)
Abbreviation Cell := (option ascii) (only parsing).
Abbreviation Board := (list (list (option ascii))) (only parsing).
Abbreviation Position := (Z * Z)%type (only parsing).
Abbreviation Direction := (Z * Z)%type (only parsing).

(** [init_board]: a fresh row object per row, so rows are never aliased
    and a board is faithfully a list of row values. *)
Definition init_board (board_size : Z) : Board :=
  (λ _, (λ _, None) <$> range 0 board_size) <$> range 0 board_size.

(** ** Direction set *)

Definition create_all_directions : list Direction :=
  filter (λ direction : Direction, direction.1 ≠ 0 ∧ direction.2 ≠ 0)
         (product [-1; 0; 1] [-1; 0; 1]).

(** ** Vocabulary *)

(** The word list literal of [get_vocabulary], entry for entry and line for
    line. *)
Definition vocabulary : list string := [
  "SEA"; "BASE"; "LINE"; "PLANE"; "SUN"; "TUNE"; "PINE"; "LENS"; "NEARS"; "SENSE";
  "ARRAY"; "FOCUS"; "HORIZON"; "TRAVEL"; "CLEAR"; "WAVES"; "STREAM"; "BRIGHT"; "SHADOW";
  "GLOW"; "TRACE"; "POINT"; "VECTOR"; "CIRCUIT"; "LIGHT"; "SHORE"; "DEPTH"; "CROSS";
  "SILENCE"; "SOUND"; "PATH"; "TRACK"; "MARK"; "RANGE"; "PEAK"; "VALLEY"; "SPACE";
  "TIME"; "FIELD"; "CLOUD"; "STORM"; "WIND"; "TREE"; "FIRE"; "EARTH"; "MOON"; "STAR";
  "RIVER"; "MOUNTAIN"; "OCEAN"; "DESERT"; "CAVE"; "ROCK"; "FLOOD"; "DREAM"; "NIGHT";
  "DAY"; "SKY"; "BRIDGE"; "FLOW"; "SOURCE"; "FALL"; "RISE"; "ARC"; "SPHERE"; "PLANE";
  "SHAPE"; "FORM"; "COLOR"; "WALL"; "GATE"; "DOOR"; "WINDOW"; "TOWER"; "ROAD"; "SIGN";
  "PATHWAY"; "PORT"; "ANCHOR"; "SAIL"; "WHEEL"; "CIRCLE"; "FOCUS"; "BEAM"; "RAIL";
  "AXIS"; "POINT"; "LEVEL"; "LINE"; "ANGLE"; "CURVE"; "LOOP"; "CHAIN"; "BRANCH";
  "ROOT"; "LEAF"; "BARK"; "STEM"; "FRUIT"; "SEED"; "BLOOM"; "PETAL"; "CROWN";
  "STONE"; "SHELL"; "WAVE"; "TIDE"; "CURRENT"; "SHORE"; "BEACH"; "CLIFF"; "BAY";
  "HARBOR"; "PORTAL"; "CHANNEL"; "PILLAR"; "ARCH"; "COLUMN"; "LANTERN"; "FIREPLACE";
  "CAMP"; "OUTPOST"; "FORT"; "CASTLE"; "CITADEL"; "PALACE"; "HALL"; "ARENA"; "DOME";
  "GALLERY"; "VAULT"; "LAB"; "STATION"; "BASE"; "HUB"; "CENTER"; "GRID"; "NETWORK";
  "FRAME"; "MESH"; "LATTICE"; "SPINE"; "CORE"; "NODE"; "BOND"; "LINK"; "WIRE"; "CABLE";
  "ABILITY"; "ABANDON"; "ABDUCT"; "ABHOR"; "ABIDE"; "ABNORMAL"; "ABOLISH"; "ABOUND"; "ABRASIVE"; "ABSENT";
  "ABSOLUTE"; "ABSORB"; "ABSTRACT"; "ABUNDANT"; "ACADEMY"; "ACCELERATE"; "ACCENT"; "ACCEPT"; "ACCESS"; "ACCIDENT";
  "ACCOMMODATE"; "ACCOMPANY"; "ACCOMPLISH"; "ACCORD"; "ACCOUNT"; "ACCUSE"; "ACQUIRE"; "ADDRESS"; "ADVANCE"; "ADVERSE";
  "ADVICE"; "AESTHETIC"; "AFFECTION"; "AFFIRM"; "AFFORD"; "AGGRESSIVE"; "ALLEGRO"; "ALREADY"; "AMAZING"; "ANCIENT";
  "ANGRY"; "ANIMAL"; "ANALYZE"; "ANCIENT"; "ANXIETY"; "APPEAL"; "APPOINT"; "APPROVE"; "ARCADE"; "ARRANGE";
  "ARRIVE"; "ARTISTIC"; "ASSEMBLE"; "ASSAULT"; "ASSERT"; "ASSESS"; "ASSIGN"; "ASSIST"; "ASSUME"; "ASTRONOMY";
  "ATHLETE"; "ATROCITY"; "BALANCE"; "BARRIER"; "BEACON"; "BENEFIT"; "BICYCLE"; "BLESSING"; "BORROW"; "BRAVERY";
  "BREATHE"; "BROTHER"; "CAUTION"; "CENTER"; "CHAMBER"; "CLIMATE"; "COGNITIVE"; "COMBINE"; "COMPASS"; "CREATE";
  "CRYSTAL"; "CURIOUS"; "CYLINDER"; "DARING"; "DEFEND"; "DECENT"; "DELICATE"; "DILIGENT"; "DISEASE"; "DISCARD";
  "DOMINATE"; "DOUBT"; "DYNAMIC"; "EDUCATION"; "ENDURE"; "ELASTIC"; "ELEVATE"; "ENLIGHTEN"; "ESSENCE"; "EXCITED";
  "FAMOUS"; "FASHION"; "FREEDOM"; "FRAGILE"; "FROSTED"; "GATHER"; "GENUINE"; "GRATEFUL"; "GROUND"; "GROWTH";
  "HARMONY"; "HEAVEN"; "HERITAGE"; "IMAGINE"; "IMPROVE"; "INSPIRE"; "INVADE"; "JOURNEY"; "JUSTICE"; "JUNGLE";
  "KITCHEN"; "KINGDOM"; "LABORATORY"; "LEGACY"; "Lighthouse"; "LIBERTY"; "LIVELY"; "MODERN"; "MOTIVE"; "MYSTIC";
  "NATURAL"; "NOBLE"; "NUCLEUS"; "OPPOSITE"; "ORGANIC"; "ORIGIN"; "PEACEFUL"; "PLANET"; "PLENTY"; "PROGRESS";
  "QUALITY"; "QUAINT"; "REFORM"; "REFLECT"; "REPOSE"; "REVEAL"; "RESTORE"; "RESCUE"; "RICH"; "SECURE";
  "SENTENCE"; "SIMPLE"; "SOLUTION"; "SPIRITUAL"; "STORMY"; "STRIVE"; "SUCCESS"; "SYNERGY"; "THEORY"; "THRIVING";
  "TIGER"; "TOPICAL"; "TRIUMPH"; "TURBINE"; "UNFOLD"; "UNITE"; "UNIQUE"; "VACANT"; "VIBRANT"; "VISION";
  "WHOLESOME"; "WONDER"; "WORTH"; "YEARNING"; "ZEALOUS"; "ZENITH"; "ZEPHYR"; "ABACUS"; "ABDUCTED"; "ABDUCTS";
  "ABIDING"; "ABSENT"; "ABSENTS"; "ABSORB"; "ABSORBED"; "ABSORBS"; "ACCIDENT"; "ACCIDENTALLY"; "ACCIDENTS";
  "ACCLAIM"; "ACCLAIMED"; "ACCLAIMS"; "ACCOMMODATE"; "ACCOMMODATED"; "ACCOMMODATES"; "ACCOMPANY"; "ACCOMPANIED";
  "ACCOMPANIES"; "ACCOMPANYING"; "ACCOUNTABLE"; "ACCOUNTABLY"; "ACCOUNTED"; "ACCOUNTING"; "ACCRETION";
  "ACCREDITED"; "ACCREDITS"; "ACCUMULATE"; "ACCUMULATED"; "ACCUMULATES"; "ACCUMULATING"; "ACCURACY"; "ACCURATELY";
  "ACCUSE"; "ACCUSED"; "ACCUSES"; "ACCUSE"; "ACCUSES"; "ACQUIRER"; "AFFAIR"; "AFFAIRS"; "AFFECTION"; "AFFILIATED";
  "AFFILIATE"; "AFFIRM"; "AFFORDABLE"; "AFFORDING"; "AFFORDS"; "AFFIX"; "AFFIRMATION"; "AFFIRMATIVE";
  "AFRAID"; "AGENT"; "AGENT"; "AGENTS"; "AGGRESSIVE"; "AGITATE"; "AGILITY"; "AGREE"; "AGREEING"; "AGREEMENT";
  "AGREEMENTS"; "AGREEABLE"; "AGREEABLES"; "ALLEGRO"; "ANALYSIS"; "ANALYZE"; "AFFECT"; "AFFECTED"; "AFFECTS";
  "AFFECTIONATE"; "AGGRESSIVE"; "AGAINST"; "AGITATED"; "ASSAULTED"; "ATHLETE"; "ATHLETES"; "AGITATING";
  "ABOMINABLE"; "ABHORRENT"; "AFRICAN"; "AGGRAVATE"; "ABRUPT"; "ANALOGY"; "ANALYSIS"; "GROWTH"; "GROWING";
  "GUSHING"; "GUSH"; "GRADUAL"; "GENIUS"; "GENERATE"; "GENUINE"; "GENERATION"; "GENERATIONAL"; "GAINFUL";
  "GALVANIZE"; "GAMBLE"; "GATHERING"; "GENUINELY"; "GREAT"; "GRIT"; "GRIND"; "GRACEFUL"; "GLASS"; "GENOME";
  "GROUND"; "GALLANT"; "GENERATOR"; "GRATEFUL"; "GAS"; "GAME"; "GUSH"; "GIGANTIC"; "GLOW"; "GUTS";
  "GENUINE"; "GRANITE"; "GROWL"; "GOAL"; "GARMENT"; "GLASS"; "GLIMMER"; "GUILD"; "GARISH"; "GARNISH";
  "GATE"; "GRAND"; "GILD"; "GLOWING"; "GIVE"; "GASOLINE"; "GADGET"; "GAMING"; "GAMES"; "GOODS";
  "GOLD"; "GABBLE"; "GIBBERISH"; "GAZE"; "GRACE"; "GIVEAWAY"; "GREATNESS"; "GRAND"; "GLOOMY"; "GOOD";
  "GUARANTEE"; "GIFT"; "GRAND"; "GENETIC"; "GLOSS"; "GLOW"; "GRIMM"; "GAY";
  "Thane"; "Alms"; "Bane"; "Grim"; "Fate"; "Wyrm"; "Laird"; "Sire"; "Knight"; "Sword";
  "Fealty"; "Crest"; "Vale"; "Loom"; "Fief"; "Wit"; "Hearth"; "Rune"; "Pagan"; "Moot";
  "Wit"; "Froth"; "Glen"; "Harold"; "Lance"; "Bane"; "Vane"; "Wold"; "Lamb"; "Hallow";
  "Gale"; "Valkyrie"; "Foe"; "Doom"; "Myth"; "Rook"; "Briar"; "Trove"; "Grave"; "Lore";
  "Vow"; "Oath"; "Fleet"; "Mire"; "Spire"; "Gloom"; "Thane"; "Cleave"; "Sear"; "Wane";
  "Vast"; "Elder"; "Stone"; "Mead"; "Forge"; "Rage"; "Valkyr"; "Mist"; "Wraith"; "Henge";
  "Fate"; "Thrift"; "Cairn"; "Fled"; "Cleave"; "Raven"; "Rogue"; "Warden"; "Vile"; "Ash";
  "Weald"; "Gore"; "Grim"; "Keen"; "Wrath"; "Blight"; "Crown"; "Vail"; "Thorn"; "Flesh";
  "Troll"; "Scorn"; "Blade"; "Ghoul"; "Fell"; "Jarl"; "Fey"; "Dread"; "Reeve"; "Purge";
  "Frost"; "Vile"; "Seer"; "Vane"; "Fodder"; "Prowl"; "Mire"; "Stray"; "Doom"; "Rook";
  "Pale"; "Reck"; "Thorn"; "Moth"; "Hag"; "Ravine"; "Ruin"; "Gale"; "Rook"; "Plague";
  "Rime"; "Haunt"; "Hound"; "Purge"; "Cairn"; "Altar"; "Ashen"; "Rage"; "Flare"; "Pest";
  "Shade"; "Thrift"; "Ravage"; "Loom"; "Mark"; "Grit"; "Sever"; "Tale"; "Witch"; "Worm";
  "Glade"; "Skull"; "Crux"; "Veld"; "Gloom"; "Crypt"; "Blaze"; "Grave"; "Forge"; "Vanquish";
  "ABILITY"; "ACCESS"; "ACCOUNT"; "ACHIEVE"; "ACQUIRE"; "ACTION"; "ACTIVITY"; "ADDITION"; "ADDRESS";
  "ADVANCE"; "ADVENTURE"; "ADVICE"; "AFFECT"; "AGENCY"; "AGREE"; "AIRPORT"; "ALERT"; "ALIGN"; "ALIVE";
  "AMAZING"; "ANALYZE"; "ANCIENT"; "ANGER"; "ANIMAL"; "ANSWER"; "APPEAL"; "APPLY"; "APPROACH"; "ARCHIVE";
  "AREA"; "ARGUMENT"; "ARRANGE"; "ARREST"; "ARRIVAL"; "ARTICLE"; "ARTIST"; "ASPECT"; "ASSIGN"; "ASSIST";
  "ASSUME"; "ASSURE"; "ATTACH"; "ATTACK"; "ATTEMPT"; "ATTEND"; "ATTRACT"; "AUTHENTIC"; "AUTHORITY";
  "AWESOME"; "BALANCE"; "BANDAGE"; "BARRIER"; "BATTLE"; "BEAUTY"; "BECOME"; "BELIEVE"; "BENEFIT";
  "BETRAY"; "BIRTHDAY"; "BLADE"; "BLANKET"; "BLESS"; "BLOCK"; "BOARD"; "BOMBARD"; "BONUS"; "BORDER";
  "BOTTLE"; "BRAIN"; "BRANCH"; "BREATH"; "BRIDGE"; "BRIGHT"; "BROKEN"; "BUDGET"; "BULLET"; "BUNDLE";
  "BURDEN"; "BUTTON"; "CABINET"; "CAMERA"; "CAMPAIGN"; "CANDIDATE"; "CAPACITY"; "CAPTURE"; "CAREER";
  "CARRIAGE"; "CARRIER"; "CAUTION"; "CELEBRATE"; "CENTER"; "CENTRAL"; "CEREMONY"; "CHAIR"; "CHALLENGE";
  "CHAMBER"; "CHANGE"; "CHANNEL"; "CHARGE"; "CHARITY"; "CHARTER"; "CHASE"; "CHECK"; "CHIEF"; "CHOICE";
  "CIRCLE"; "CITIZEN"; "CLARIFY"; "CLASSIC"; "CLEANSE"; "CLIENT"; "CLIMATE"; "CLOSURE"; "CLUSTER";
  "COLLECT"; "COLLEGE"; "COLONY"; "COLOR"; "COMBAT"; "COMEDY"; "COMMAND"; "COMMENT"; "COMMIT";
  "COMMON"; "COMMUNICATE"; "COMPARE"; "COMPANY"; "COMPETE"; "COMPILE"; "COMPLEX"; "COMPLY"; "CONCEPT";
  "CONCERN"; "CONCLUDE"; "CONDUCT"; "CONFERENCE"; "CONFIRM"; "CONFLICT"; "CONFRONT"; "CONGRESS";
  "CONNECT"; "CONQUER"; "CONSENT"; "CONSIDER"; "CONSIST"; "CONSTANT"; "CONSTRUCT"; "CONSULT"; "CONTACT";
  "CONTAIN"; "CONTENT"; "CONTEST"; "CONTEXT"; "CONTINUE"; "CONTRACT"; "CONTROL"; "CONVERT"; "CONVINCE";
  "COOPERATE"; "COPYRIGHT"; "CORNER"; "CORRECT"; "CORRIDOR"; "COUNTRY"; "COURAGE"; "COURSE"; "CREATE";
  "CREATOR"; "CREDIT"; "CRISIS"; "CRITICAL"; "CROWD"; "CULTURE"; "CUSTOM"; "CYCLE"; "DAMAGE"; "DANGER";
  "DATABASE"; "DEADLINE"; "DEBATE"; "DECIDE"; "DECLARE"; "DECLINE"; "DEDICATE"; "DEFEAT"; "DEFEND";
  "DEFENSE"; "DEFINE"; "DEGREE"; "DELAY"; "DELETE"; "DELIVER"; "DEMAND"; "DEMONSTRATE"; "DENY";
  "DEPART"; "DEPEND"; "DEPOSIT"; "DEPRESS"; "DERIVE"; "DESCRIBE"; "DESERT"; "DESIGN"; "DESIRE";
  "DETECT"; "DETERMINE"; "DEVELOP"; "DEVICE"; "DIAGNOSE"; "DIFFER"; "DIGITAL"; "DIGNITY"; "DIRECT";
  "DISABLE"; "DISAGREE"; "DISAPPEAR"; "DISARM"; "DISCOUNT"; "DISCOVER"; "DISCUSS"; "DISMISS"; "DISPLAY";
  "DISPOSE"; "DISTANCE"; "DISTURB"; "DIVIDE"; "DIVORCE"; "DOCTOR"; "DOCUMENT"; "DOMAIN"; "DOMINATE";
  "DONATE"; "DOUBLE"; "DOUBT"; "DOWNLOAD"; "DRAMA"; "DREAM"; "DRESS"; "DRIVE"; "DROUGHT"; "DURABLE";
  "DYNAMIC"; "EAGER"; "EARLY"; "EARNEST"; "EARTH"; "EASE"; "EAST"; "EASY"; "ECONOMIC"; "EDITION";
  "EDITOR"; "EDUCATE"; "EFFECT"; "EFFORT"; "ELABORATE"; "ELECTION"; "ELECTRIC"; "ELEVATE"; "ELIMINATE";
  "EMERGENCY"; "EMOTION"; "EMPHASIS"; "EMPOWER"; "ENABLE"; "ENACT"; "ENCOUNTER"; "ENDANGER"; "ENDLESS";
  "ENDORSE"; "ENDURE"; "ENERGY"; "ENGAGE"; "ENGINE"; "ENHANCE"; "ENJOY"; "ENLARGE"; "ENLIST"; "ENRICH";
  "ENSURE"; "ENTERPRISE"; "ENTIRE"; "ENTITLE"; "ENTRY"; "ENVIRONMENT"; "EPISODE"; "EQUALITY"; "EQUATION";
  "EQUIP"; "ESSENCE"; "ESTABLISH"; "ESTIMATE"; "ETHICS"; "EVACUATE"; "EVALUATE"; "EVENT"; "EVIDENCE";
  "EVOLVE"; "EXACT"; "EXAMPLE"; "EXCEED"; "EXCEL"; "EXCEPT"; "EXCHANGE"; "EXCITE"; "EXECUTE"; "EXEMPT";
  "EXERCISE"; "EXHAUST"; "EXHIBIT"; "EXIST"; "EXPAND"; "EXPECT"; "EXPENSE"; "EXPERIENCE"; "EXPLAIN";
  "EXPLORE"; "EXPORT"; "EXPOSE"; "EXPRESS"; "EXTEND"; "EXTREME"; "EYEWITNESS"; "FABRIC"; "FACTORY";
  "FAILURE"; "FAITH"; "FAMILY"; "FAMOUS"; "FANTASY"; "FARMLAND"; "FASHION"; "FEATURE"; "FEDERAL";
  "FEELING"; "FESTIVAL"; "FIBER"; "FICTION"; "FIELD"; "FIERCE"; "FIGHTER"; "FIGURE"; "FILM"; "FILTER";
  "FINALIZE"; "FINANCE"; "FINDING"; "FIREWORK"; "FIRST"; "FIXTURE"; "FLAVOR"; "FLEXIBLE"; "FLIGHT";
  "FLORA"; "FLOURISH"; "FOCUS"; "FOLLOW"; "FOOTBALL"; "FOREIGN"; "FORGE"; "FORMAL"; "FORMULA"; "FORTUNE";
  "ABLE"; "ABUSE"; "ACE"; "ACID"; "ACT"; "ADD"; "AIR"; "AIM"; "ALONE"; "AND";
  "ANGER"; "ANIMAL"; "APPLE"; "AREA"; "ARM"; "ART"; "ASLEEP"; "AWAKE"; "BACK"; "BALL";
  "BAND"; "BANK"; "BAR"; "BASE"; "BEAM"; "BEAR"; "BELL"; "BILL"; "BIRD"; "BRAIN";
  "BROOK"; "BUS"; "CAGE"; "CAP"; "CAR"; "CAST"; "CAT"; "COLD"; "COLOR"; "CROWN";
  "DART"; "DAY"; "DOG"; "DOOR"; "DOWN"; "DREAM"; "EAR"; "EDGE"; "EGG"; "ELBOW";
  "EYE"; "FALL"; "FARM"; "FAST"; "FEAR"; "FIRE"; "FIGHT"; "FOOT"; "GAME"; "GLOW";
  "GOLD"; "GRASS"; "GROUND"; "HAND"; "HILL"; "HOME"; "HOPE"; "HURT"; "JUMP"; "JUDGE";
  "KING"; "KISS"; "KNIFE"; "LACE"; "LAND"; "LION"; "LAMP"; "LINE"; "LIST"; "LOST";
  "MAP"; "MATCH"; "MOUSE"; "NOISE"; "NIGHT"; "OPEN"; "OPINION"; "PARK"; "PEN"; "PINE";
  "PLACE"; "PLANT"; "PLUG"; "RACE"; "RAIN"; "ROAD"; "RISE"; "RING"; "SAND"; "SING";
  "SEA"; "BASE"; "LINE"; "PLANE"; "SUN";
  "TUNE"; "PINE"; "LENS"; "NEARS"; "SENSE"
].

(** ** Pseudorandom source

    [random.shuffle], [random.choice] and [random.randint] draw from the
    process-wide generator of the [random] module.  The generator is an
    explicit state [G] threaded through every call; what the library
    guarantees about each draw is recorded as a law, so that every theorem
    below holds for every generator and every seed. *)
Class RandomSource (G : Type) := {
  (** [random.shuffle(x)]: [x] reordered in place *)
  random_shuffle : ∀ {A : Type}, G → list A → list A * G;
  (** [random.choice(seq)]: an element of [seq]; [None] stands for the
      [IndexError] raised on an empty sequence *)
  random_choice : ∀ {A : Type}, G → list A → option A * G;
  (** [random.randint(a, b)]: an integer [a <= n <= b] *)
  random_randint : G → Z → Z → Z * G;
  random_shuffle_perm : ∀ {A : Type} (g : G) (l : list A),
    (random_shuffle g l).1 ≡ₚ l;
  random_choice_spec : ∀ {A : Type} (g : G) (l : list A),
    match (random_choice g l).1 with
    | Some x => x ∈ l
    | None => l = []
    end;
  random_randint_range : ∀ (g : G) (a b : Z),
    a ≤ b → a ≤ (random_randint g a b).1 ≤ b;
}.

(** A generator that replays a finite tape of draws (and draws 0 once the
    tape is used up); its laws are proved further down. *)
Definition tape_draw (g : list nat) (n : nat) : nat * list nat :=
  match g with
  | [] => (0%nat, [])
  | x :: g' => ((x mod n)%nat, g')
  end.

Fixpoint tape_shuffle {A} (g : list nat) (l : list A) : list A * list nat :=
  match l with
  | [] => ([], g)
  | x :: l' =>
      let '(s, g1) := tape_shuffle g l' in
      let '(k, g2) := tape_draw g1 (S (length s)) in
      (take k s ++ x :: drop k s, g2)
  end.

Definition tape_choice {A} (g : list nat) (l : list A) : option A * list nat :=
  match l with
  | [] => (None, g)
  | _ => let '(k, g') := tape_draw g (length l) in (l !! k, g')
  end.

Definition tape_randint (g : list nat) (a b : Z) : Z * list nat :=
  let '(k, g') := tape_draw g (Z.to_nat (b - a + 1)) in (a + Z.of_nat k, g').

(** ** Vocabulary supplier *)

(** [list(set(vocabulary))] enumerates the distinct literals in an order the
    language leaves open; [elements] of the [gset] is one such order, and
    the shuffle that follows redraws it. *)
Definition get_vocabulary `{RandomSource G} (g : G) : list string * G :=
  let vocabulary := upper <$> elements (list_to_set vocabulary : gset string) in
  random_shuffle g vocabulary.

(** ** Placement checker *)

Definition board_getitem (board : Board) (r c : Z) : result Cell :=
  board_row ← getitem board r; getitem board_row c.

(** [board[r][c] = x]: the row object is updated in place. *)
Definition board_setitem (board : Board) (r c : Z) (x : Cell) : result Board :=
  board_row ← getitem board r;
  board_row' ← setitem board_row c x;
  setitem board r board_row'.

(** The loop of [can_place_word] from index [i] on, [word] being the
    characters not yet enumerated. *)
Fixpoint can_place_word_from (board : Board) (board_size : Z) (i : Z)
    (word : string) (position : Position) (direction : Direction) : result bool :=
  let '(row, col) := position in
  let '(d_row, d_col) := direction in
  match word with
  | EmptyString => Ok true
  | String char word' =>
      let r := row + i * d_row in
      let c := col + i * d_col in
      if bool_decide (r < 0 ∨ r >= board_size ∨ c < 0 ∨ c >= board_size) then Ok false
      else
        cell ← board_getitem board r c;
        if bool_decide (cell ∉ [None; Some char]) then Ok false
        else can_place_word_from board board_size (i + 1) word' position direction
  end.

Definition can_place_word (board : Board) (board_size : Z) (word : string)
    (position : Position) (direction : Direction) : result bool :=
  can_place_word_from board board_size 0 word position direction.

(** ** Placement *)

Fixpoint place_word_from (board : Board) (i : Z) (word : string)
    (position : Position) (direction : Direction) : result Board :=
  let '(row, col) := position in
  let '(d_row, d_col) := direction in
  match word with
  | EmptyString => Ok board
  | String char word' =>
      let r := row + i * d_row in
      let c := col + i * d_col in
      board' ← board_setitem board r c (Some char);
      place_word_from board' (i + 1) word' position direction
  end.

Definition place_word (board : Board) (word : string)
    (position : Position) (direction : Direction) : result Board :=
  place_word_from board 0 word position direction.

(** ** Placement engine *)

Abbreviation Placement := (string * Position * Direction)%type (only parsing).

(** The variables of [populate_board], the board it mutates and the
    generator.  [st_placements] is a history variable that no branch reads:
    it records the (word, position, direction) of every call of
    [place_word], which the source does not keep. *)
Record Engine (G : Type) : Type := MkEngine {
  st_board : Board;
  st_positions : list Position;
  st_pop_positions : list Position;
  st_words : list string;
  st_max_length : Z;
  st_rng : G;
  st_placements : list Placement;
}.
Arguments MkEngine {G}.
Arguments st_board {G}.
Arguments st_positions {G}.
Arguments st_pop_positions {G}.
Arguments st_words {G}.
Arguments st_max_length {G}.
Arguments st_rng {G}.
Arguments st_placements {G}.

Definition initial_positions (board_size : Z) : list Position :=
  product (range 0 (board_size - 1)) (range 0 (board_size - 1)).

(** One iteration of the [while] loop; the boolean is [placed]. *)
Definition attempt `{RandomSource G} (board_size : Z) (word : string)
    (directions : list Direction) (st : Engine G) : result (Engine G * bool) :=
  '(position, positions) ← list_pop (st_positions st);
  let pop_positions := st_pop_positions st ++ [position] in
  let '(chosen, g) := random_choice (st_rng st) directions in
  direction ← from_option Ok (Err IndexError) chosen;
  ok ← can_place_word (st_board st) board_size word position direction;
  if ok : bool then
    board ← place_word (st_board st) word position direction;
    Ok (MkEngine board positions pop_positions
          (st_words st ++ [word])
          (Z.max (Z.of_nat (String.length word)) (st_max_length st))
          g (st_placements st ++ [(word, position, direction)]), true)
  else
    Ok (MkEngine (st_board st) positions pop_positions
          (st_words st) (st_max_length st) g (st_placements st), false).

(** [while not placed and len(positions) != 0]; [None] when [fuel]
    iterations did not reach the loop's exit. *)
Fixpoint attempts `{RandomSource G} (fuel : nat) (board_size : Z) (word : string)
    (directions : list Direction) (st : Engine G) (placed : bool)
    : option (result (Engine G)) :=
  if negb placed && bool_decide (length (st_positions st) ≠ 0%nat) then
    match fuel with
    | O => None
    | S fuel' =>
        match attempt board_size word directions st with
        | Ok (st', placed') => attempts fuel' board_size word directions st' placed'
        | Err e => Some (Err e)
        end
    end
  else Some (Ok st).

(** The head of the [for] body: merge back the popped positions, shuffle. *)
Definition next_word `{RandomSource G} (st : Engine G) : Engine G :=
  let positions := st_positions st ++ st_pop_positions st in
  let '(positions, g) := random_shuffle (st_rng st) positions in
  MkEngine (st_board st) positions [] (st_words st) (st_max_length st)
           g (st_placements st).

Fixpoint for_words `{RandomSource G} (fuel : nat) (board_size : Z)
    (vocabulary : list string) (directions : list Direction) (st : Engine G)
    : option (result (Engine G)) :=
  match vocabulary with
  | [] => Some (Ok st)
  | word :: vocabulary' =>
      match attempts fuel board_size word directions (next_word st) false with
      | Some (Ok st') => for_words fuel board_size vocabulary' directions st'
      | Some (Err e) => Some (Err e)
      | None => None
      end
  end.

Definition populate_start {G} (board : Board) (board_size : Z) (g : G) : Engine G :=
  MkEngine board (initial_positions board_size) [] [] 0 g [].

(** [populate_board] with everything it leaves behind: the mutated board
    and the generator besides the returned pair. *)
Definition populate_board_run `{RandomSource G} (fuel : nat) (board : Board)
    (board_size : Z) (vocabulary : list string) (directions : list Direction)
    (g : G) : option (result (Engine G)) :=
  for_words fuel board_size vocabulary directions (populate_start board board_size g).

Definition populate_board `{RandomSource G} (fuel : nat) (board : Board)
    (board_size : Z) (vocabulary : list string) (directions : list Direction)
    (g : G) : option (result (list string * Z)) :=
  match populate_board_run fuel board board_size vocabulary directions g with
  | Some (Ok st) => Some (Ok (st_words st, st_max_length st))
  | Some (Err e) => Some (Err e)
  | None => None
  end.

(** ** Filler *)

Fixpoint for_each {A S} (l : list A) (body : A → S → result S) (s : S) : result S :=
  match l with
  | [] => Ok s
  | x :: l' => s' ← body x s; for_each l' body s'
  end.

Definition fill_cell `{RandomSource G} (start_codepoint end_codepoint : Z)
    (row col : Z) (st : Board * G) : result (Board * G) :=
  let '(board, g) := st in
  cell ← board_getitem board row col;
  match cell with
  | None =>
      let '(n, g') := random_randint g start_codepoint end_codepoint in
      board' ← board_setitem board row col (Some (chr n));
      Ok (board', g')
  | Some _ => Ok (board, g)
  end.

(** The function returns the board it was given, after the writes; the
    source annotates it [FilledBoard], a board without [None]. *)
Definition fill_empty_cells `{RandomSource G} (board : Board) (board_size : Z)
    (g : G) : result (Board * G) :=
  let start_codepoint := ord "A" in
  let end_codepoint := ord "Z" in
  for_each (range 0 board_size) (λ row,
    for_each (range 0 board_size) (λ col,
      fill_cell start_codepoint end_codepoint row col)) (board, g).

(** ** Orchestration *)

(** The generation steps of [main] (its first five statements), with the
    board size and the vocabulary as arguments; the sorting,
    formatting, file writing and printing that follow are not modelled. *)
Definition generate `{RandomSource G} (fuel : nat) (board_size : Z)
    (vocabulary : list string) (g : G)
    : option (result (Board * list string * Z * G)) :=
  let board := init_board board_size in
  let directions := create_all_directions in
  match populate_board_run fuel board board_size vocabulary directions g with
  | Some (Ok st) =>
      Some ('(board, g') ← fill_empty_cells (st_board st) board_size (st_rng st);
            Ok (board, st_words st, st_max_length st, g'))
  | Some (Err e) => Some (Err e)
  | None => None
  end.

Definition main `{RandomSource G} (fuel : nat) (g : G)
    : option (result (Board * list string * Z * G)) :=
  let board_size := 20 in
  let '(vocabulary, g) := get_vocabulary g in
  generate fuel board_size vocabulary g.

(** ** Specification vocabulary *)

(** An N×N grid. *)
Definition board_wf (board_size : Z) (board : Board) : Prop :=
  length board = Z.to_nat board_size ∧
  Forall (λ board_row, length board_row = Z.to_nat board_size) board.

Definition in_grid (board_size : Z) (p : Position) : Prop :=
  0 ≤ p.1 < board_size ∧ 0 ≤ p.2 < board_size.

(** The cell [position + i·direction]. *)
Definition cell_of (position : Position) (direction : Direction) (i : nat) : Position :=
  (position.1 + Z.of_nat i * direction.1, position.2 + Z.of_nat i * direction.2).
Arguments cell_of : simpl never.

(** The content of cell [p], for [p] with non-negative coordinates. *)
Definition board_cell (board : Board) (p : Position) : option Cell :=
  board_row ← board !! Z.to_nat p.1; board_row !! Z.to_nat p.2.

(** Every cell of the word lies in the grid and is empty or holds the
    word's letter. *)
Definition fits (board : Board) (board_size : Z) (word : string)
    (position : Position) (direction : Direction) : Prop :=
  ∀ (i : nat) (ch : ascii), String.get i word = Some ch →
    in_grid board_size (cell_of position direction i) ∧
    (board_cell board (cell_of position direction i) = Some None ∨
     board_cell board (cell_of position direction i) = Some (Some ch)).

(** Every cell of the word lies in the grid and holds the word's letter. *)
Definition reads (board : Board) (board_size : Z) (word : string)
    (position : Position) (direction : Direction) : Prop :=
  ∀ (i : nat) (ch : ascii), String.get i word = Some ch →
    in_grid board_size (cell_of position direction i) ∧
    board_cell board (cell_of position direction i) = Some (Some ch).

(** A letter, once in a cell, is still there. *)
Definition letters_kept (board board' : Board) : Prop :=
  ∀ (p : Position) (ch : ascii), 0 ≤ p.1 → 0 ≤ p.2 →
    board_cell board p = Some (Some ch) → board_cell board' p = Some (Some ch).

Definition is_upper_letter (c : ascii) : Prop := ord "A" ≤ ord c ≤ ord "Z".

(** ** Invariants of the placement engine *)

(** No position is lost or duplicated by popping and merging back. *)
Definition pool_inv {G} (board_size : Z) (st : Engine G) : Prop :=
  st_positions st ++ st_pop_positions st ≡ₚ initial_positions board_size.

(** An accepted placement: its direction was drawn from the direction set,
    its start from the pool, and the word can be read on the board. *)
Definition placement_ok (board : Board) (board_size : Z)
    (directions : list Direction) (pl : Placement) : Prop :=
  pl.2 ∈ directions ∧ pl.1.2 ∈ initial_positions board_size ∧
  reads board board_size pl.1.1 pl.1.2 pl.2.

Definition engine_inv {G} (board_size : Z) (directions : list Direction)
    (board0 : Board) (st : Engine G) : Prop :=
  board_wf board_size (st_board st) ∧
  letters_kept board0 (st_board st) ∧
  Forall (placement_ok (st_board st) board_size directions) (st_placements st) ∧
  st_words st = (λ pl : Placement, pl.1.1) <$> st_placements st.

Definition engine_ok {G} (board_size : Z) (directions : list Direction)
    (board0 : Board) (st : Engine G) : Prop :=
  pool_inv board_size st ∧ engine_inv board_size directions board0 st.

(** ** Specification vocabulary of the filler *)

(** The data-model invariant of a grid: a cell is empty or holds an
    uppercase letter. *)
Definition grid_letters_upper (board : Board) : Prop :=
  Forall (Forall (λ cell : Cell, ∀ ch, cell = Some ch → is_upper_letter ch)) board.

(** From [board] to [board']: the grid keeps its size, no letter is
    changed, and every new letter stands in a cell that was empty and is an
    uppercase letter. *)
Definition filled_from (board_size : Z) (board board' : Board) : Prop :=
  board_wf board_size board ∧
  board_wf board_size board' ∧
  letters_kept board board' ∧
  ∀ (p : Position) (ch : ascii), 0 ≤ p.1 → 0 ≤ p.2 →
    board_cell board' p = Some (Some ch) →
    board_cell board p = Some (Some ch) ∨
    (board_cell board p = Some None ∧ is_upper_letter ch).

(** A word of uppercase letters only, and its boolean test. *)
Definition upper_word (word : string) : Prop :=
  ∀ (i : nat) (ch : ascii), String.get i word = Some ch → is_upper_letter ch.

Fixpoint upper_wordb (word : string) : bool :=
  match word with
  | EmptyString => true
  | String ch word' => bool_decide (ord "A" ≤ ord ch ≤ ord "Z") && upper_wordb word'
  end.

(** The board of the engine is a grid in that sense. *)
Definition upper_board {G} (board_size : Z) (st : Engine G) : Prop :=
  board_wf board_size (st_board st) ∧ grid_letters_upper (st_board st).

(** ** A worked run *)

(** A 4×4 board, three words (the last one too long for the board) and a
    tape of draws; the engine places CAT from (2,0) going up and right, and
    CAR from (2,2) going up and left, sharing the A at (1,1). *)
Definition example_vocabulary : list string := ["CAT"; "CAR"; "TOOLONG"].
Definition example_tape : list nat :=
  [0; 3; 1; 2; 5; 7; 1; 1; 2; 3; 4; 5; 6; 7; 8; 9]%nat.
Definition example_board : Board :=
  [[Some "R"; None; Some "T"; None]; [None; Some "A"; None; None];
   [Some "C"; None; Some "C"; None]; [None; None; None; None]]%char.

(** ** Specification vocabulary for unchecked indices *)

(** The indices a Python list of length N accepts, and the cell an accepted
    index denotes. *)
Definition in_index_range (board_size : Z) (p : Position) : Prop :=
  (- board_size ≤ p.1 < board_size) ∧ (- board_size ≤ p.2 < board_size).

Definition wrap_index (board_size : Z) (i : Z) : Z :=
  if bool_decide (0 ≤ i) then i else board_size + i.

Definition wrap_cell (board_size : Z) (p : Position) : Position :=
  (wrap_index board_size p.1, wrap_index board_size p.2).

(** Every cell of the board of [st] holds what it held on [board0] or lies
    on the path of a recorded placement. *)
Definition written_on_paths {G} (board0 : Board)
    (st : Engine G) : Prop :=
  ∀ p : Z * Z, 0 ≤ p.1 → 0 ≤ p.2 →
    board_cell (st_board st) p = board_cell board0 p ∨
    ∃ W position direction i ch,
      (W, position, direction) ∈ st_placements st ∧
      String.get i W = Some ch ∧ cell_of position direction i = p.

(** [max_length] is the greatest length among [words], 0 for no word. *)
Definition is_max_length (words : list string) (max_length : Z) : Prop :=
  Forall (λ word, Z.of_nat (String.length word) ≤ max_length) words ∧
  (words = [] → max_length = 0) ∧
  (words ≠ [] → ∃ word, word ∈ words ∧ Z.of_nat (String.length word) = max_length).

(** ** Output text *)

(** [sep.join(items)], [s.ljust(width)] (padding with spaces on the right)
    and the slice [l[a:b]] (a negative bound counts from the end, and both
    bounds are clamped to the list). *)
Definition join (sep : string) (items : list string) : string :=
  String.concat sep items.

Fixpoint spaces (n : nat) : string :=
  match n with
  | O => EmptyString
  | S n' => String " " (spaces n')
  end.

Definition ljust (s : string) (width : Z) : string :=
  s +:+ spaces (Z.to_nat (width - Z.of_nat (String.length s))).

Definition slice_bound (len : Z) (i : Z) : Z :=
  if bool_decide (i < 0) then Z.max 0 (len + i) else Z.min i len.

Definition py_slice {A} (l : list A) (a b : Z) : list A :=
  let a' := slice_bound (Z.of_nat (length l)) a in
  let b' := slice_bound (Z.of_nat (length l)) b in
  take (Z.to_nat (b' - a')) (drop (Z.to_nat a') l).

Definition newline : string := String "010" EmptyString.

(** A cell of a filled board is a one-character string. *)
Definition cell_str (c : ascii) : string := String c EmptyString.

Definition board_to_heredoc (board : list (list ascii)) : string :=
  join newline ((λ row, join " " (cell_str <$> row)) <$> board).

(** The variables of the loop of [words_to_formatted_2d]. *)
Record Rows : Type := MkRows {
  word_rows : list (list string);
  displayed_word_rows : list (list string);
  n_inserted_words : Z;
}.

Definition quoted (word : string) : string := "'" +:+ word +:+ "'".

(** One iteration of the [while] loop; [display] is the truth value of the
    argument ([None] and [False] are both false). *)
Definition rows_step (words : list string) (n_words_per_row : Z)
    (word_justified_length : Z) (display : bool) (st : Rows) : Rows :=
  let n_words := Z.of_nat (length words) in
  let n_row_words := Z.min (n_words - n_inserted_words st) n_words_per_row in
  let inserted_words :=
    py_slice words (n_inserted_words st) (n_inserted_words st + n_row_words) in
  let row := (λ word, ljust (quoted word) (word_justified_length + 2))
               <$> inserted_words in
  let displayed :=
    if display
    then displayed_word_rows st
           ++ [(λ word, ljust word word_justified_length) <$> inserted_words]
    else displayed_word_rows st in
  MkRows (word_rows st ++ [row]) displayed (n_inserted_words st + n_row_words).

(** [while n_inserted_words < n_words]; [None] when [fuel] iterations did
    not reach the loop's exit. *)
Fixpoint rows_loop (fuel : nat) (words : list string) (n_words_per_row : Z)
    (word_justified_length : Z) (display : bool) (st : Rows) : option Rows :=
  if bool_decide (n_inserted_words st < Z.of_nat (length words)) then
    match fuel with
    | O => None
    | S fuel' =>
        rows_loop fuel' words n_words_per_row word_justified_length display
          (rows_step words n_words_per_row word_justified_length display st)
    end
  else Some st.

Definition words_to_formatted_2d (fuel : nat) (words : list string)
    (n_words_per_row : Z) (word_justified_length : Z) (display : bool)
    : option (string * string) :=
  st ← rows_loop fuel words n_words_per_row word_justified_length display
         (MkRows [] [] 0);
  let formatted_words :=
    join ("," +:+ newline) (join ", " <$> word_rows st) +:+ "," in
  let displayed_words :=
    if display then join newline (join "      " <$> displayed_word_rows st)
    else EmptyString in
  Some (formatted_words, displayed_words).

(** ** Specification vocabulary of the formatter *)

(** The first [m] rows of [words] cut into rows of [k] entries, each entry
    shown by [show]. *)
Definition chunk_rows (show : string → string) (words : list string)
    (k m : nat) : list (list string) :=
  (λ i, show <$> take k (drop (i * k) words)) <$> seq 0 m.

Definition quoted_entry (word_justified_length : Z) (word : string) : string :=
  ljust (quoted word) (word_justified_length + 2).

Definition displayed_entry (word_justified_length : Z) (word : string) : string :=
  ljust word word_justified_length.

(** What the loop has built after [m] rows. *)
Definition rows_inv (words : list string) (n_words_per_row : Z)
    (word_justified_length : Z) (display : bool) (st : Rows) : Prop :=
  let n := Z.of_nat (length words) in
  let m := length (word_rows st) in
  n_inserted_words st = Z.min n (n_words_per_row * Z.of_nat m) ∧
  (m = 0%nat ∨ n_words_per_row * (Z.of_nat m - 1) < n) ∧
  word_rows st
  = chunk_rows (quoted_entry word_justified_length) words
      (Z.to_nat n_words_per_row) m ∧
  displayed_word_rows st
  = if display
    then chunk_rows (displayed_entry word_justified_length) words
           (Z.to_nat n_words_per_row) m
    else [].

(** * Properties *)

(** ** The tape generator obeys the laws of the library *)

Lemma tape_draw_lt g n : (0 < n)%nat → ((tape_draw g n).1 < n)%nat.
Proof.
  intros Hn. destruct g as [|x g]; simpl; [done|].
  apply Nat.mod_upper_bound. lia.
Qed.

Lemma tape_shuffle_perm {A} g (l : list A) : (tape_shuffle g l).1 ≡ₚ l.
Proof.
  revert g. induction l as [|x l IH]; intros g; simpl; [done|].
  specialize (IH g). destruct (tape_shuffle g l) as [s g1]; simpl in IH.
  destruct (tape_draw g1 (S (length s))) as [k g2]; simpl.
  rewrite <- Permutation_middle, take_drop. by constructor.
Qed.

Lemma tape_choice_spec {A} g (l : list A) :
  match (tape_choice g l).1 with Some x => x ∈ l | None => l = [] end.
Proof.
  destruct l as [|y l]; [done|]. unfold tape_choice.
  pose proof (tape_draw_lt g (length (y :: l)) ltac:(simpl; lia)) as Hlt.
  destruct (tape_draw g (length (y :: l))) as [k g']; simpl in Hlt |- *.
  destruct (lookup_lt_is_Some_2 (y :: l) k Hlt) as [x Hx].
  rewrite Hx. by eapply list_elem_of_lookup_2.
Qed.

Lemma tape_randint_range g a b : a ≤ b → a ≤ (tape_randint g a b).1 ≤ b.
Proof.
  intros Hab. unfold tape_randint.
  pose proof (tape_draw_lt g (Z.to_nat (b - a + 1)) ltac:(lia)) as Hlt.
  destruct (tape_draw g (Z.to_nat (b - a + 1))) as [k g']; simpl in *. lia.
Qed.

#[global] Instance tape_source : RandomSource (list nat) := {|
  random_shuffle := @tape_shuffle;
  random_choice := @tape_choice;
  random_randint := tape_randint;
  random_shuffle_perm := @tape_shuffle_perm;
  random_choice_spec := @tape_choice_spec;
  random_randint_range := tape_randint_range;
|}.

(** ** Direction set *)

(** C1 (evaluation of the code): the direction list that [main] supplies
    to the placement engine is the four diagonal vectors and nothing else;
    the filter keeps a pair only when both of its components are non-zero,
    so the four horizontal and vertical unit vectors are left out. *)
Theorem create_all_directions_diagonals_only :
  create_all_directions = [(-1, -1); (-1, 1); (1, -1); (1, 1)] ∧
  length create_all_directions = 4%nat ∧
  ((0, 1) ∉ create_all_directions) ∧ ((0, -1) ∉ create_all_directions) ∧
  ((1, 0) ∉ create_all_directions) ∧ ((-1, 0) ∉ create_all_directions).
Proof.
  assert (create_all_directions = [(-1, -1); (-1, 1); (1, -1); (1, 1)]) as Heq
    by (vm_compute; reflexivity).
  rewrite Heq. split_and!; [done|done|..];
    intros Hin; repeat (apply elem_of_cons in Hin as [Hin|Hin]; [discriminate|]);
    by apply elem_of_nil in Hin.
Qed.

(** ** Initial pool of starting positions *)

Lemma elem_of_range a b k : k ∈ range a b ↔ a ≤ k < b.
Proof. unfold range. rewrite elem_of_seqZ. lia. Qed.

Lemma elem_of_product {A B} (l1 : list A) (l2 : list B) x y :
  (x, y) ∈ product l1 l2 ↔ x ∈ l1 ∧ y ∈ l2.
Proof.
  unfold product. rewrite list_elem_of_bind. split.
  - intros (x' & Hin & Hx'). apply list_elem_of_bind in Hin as (y' & Hin & Hy').
    apply list_elem_of_singleton in Hin. simplify_eq. auto.
  - intros [Hx Hy]. exists x. split; [|done].
    apply list_elem_of_bind. exists y. split; [|done]. by apply list_elem_of_singleton.
Qed.

Lemma product_cons {A B} (x : A) (l1 : list A) (l2 : list B) :
  product (x :: l1) l2 = (pair x <$> l2) ++ product l1 l2.
Proof.
  unfold product. simpl. by f_equal.
Qed.

Lemma NoDup_product {A B} (l1 : list A) (l2 : list B) :
  NoDup l1 → NoDup l2 → NoDup (product l1 l2).
Proof.
  intros H1 H2. induction H1 as [|x l1 Hx H1 IH]; [constructor|].
  rewrite product_cons. apply NoDup_app. split_and!.
  - apply NoDup_fmap_2; [|done]. by intros y y' [=].
  - intros [x' y'] Hin Hin'.
    apply list_elem_of_fmap in Hin as (y'' & [=] & _). subst.
    by apply elem_of_product in Hin' as [? _].
  - done.
Qed.

Lemma length_product {A B} (l1 : list A) (l2 : list B) :
  length (product l1 l2) = (length l1 * length l2)%nat.
Proof.
  induction l1 as [|x l1 IH]; [done|].
  rewrite product_cons, length_app, length_fmap, IH. simpl. lia.
Qed.

(** C8: the pool that [populate_board] starts from is exactly the positions
    [(r, c)] with [0 <= r <= N-2] and [0 <= c <= N-2], each once; no cell
    of the last row or of the last column is in it. *)
Theorem initial_positions_exclude_last_row_and_column (board_size : Z) :
  (∀ r c, (r, c) ∈ initial_positions board_size ↔
          0 ≤ r ≤ board_size - 2 ∧ 0 ≤ c ≤ board_size - 2) ∧
  NoDup (initial_positions board_size) ∧
  length (initial_positions board_size)
    = (Z.to_nat (board_size - 1) * Z.to_nat (board_size - 1))%nat ∧
  (∀ k, ((board_size - 1, k) ∉ initial_positions board_size) ∧
        ((k, board_size - 1) ∉ initial_positions board_size)) ∧
  (∀ G (board : Board) (g : G),
     st_positions (populate_start board board_size g) = initial_positions board_size).
Proof.
  assert (∀ r c, (r, c) ∈ initial_positions board_size ↔
          0 ≤ r ≤ board_size - 2 ∧ 0 ≤ c ≤ board_size - 2) as Hin.
  { intros r c. unfold initial_positions.
    rewrite elem_of_product, !elem_of_range. lia. }
  split_and!.
  - done.
  - apply NoDup_product; apply NoDup_seqZ.
  - unfold initial_positions, range. rewrite length_product, length_seqZ.
    by replace (board_size - 1 - 0) with (board_size - 1) by lia.
  - intros k. rewrite !Hin. lia.
  - done.
Qed.

(** ** Board access inside the grid *)

Lemma py_index_in_range (len : nat) (i : Z) :
  0 ≤ i < Z.of_nat len → py_index len i = Some (Z.to_nat i).
Proof. intros Hi. unfold py_index. by rewrite bool_decide_eq_true_2. Qed.

Lemma getitem_in_range {A} (l : list A) (i : Z) :
  0 ≤ i < Z.of_nat (length l) →
  ∃ x, l !! Z.to_nat i = Some x ∧ getitem l i = Ok x.
Proof.
  intros Hi. unfold getitem. rewrite py_index_in_range by done.
  destruct (lookup_lt_is_Some_2 l (Z.to_nat i)) as [x Hx]; [lia|].
  exists x. by rewrite Hx.
Qed.

Lemma setitem_in_range {A} (l : list A) (i : Z) (x : A) :
  0 ≤ i < Z.of_nat (length l) → setitem l i x = Ok (<[Z.to_nat i:=x]> l).
Proof. intros Hi. unfold setitem. by rewrite py_index_in_range. Qed.

Lemma board_wf_row board_size (board : list (list (option ascii))) k board_row :
  board_wf board_size board → board !! k = Some board_row →
  length board_row = Z.to_nat board_size.
Proof.
  intros [_ Hrows] Hk. rewrite Forall_lookup in Hrows. by eapply Hrows.
Qed.

Lemma board_getitem_in_grid board_size (board : list (list (option ascii))) r c :
  board_wf board_size board → in_grid board_size (r, c) →
  ∃ cell, board_cell board (r, c) = Some cell ∧ board_getitem board r c = Ok cell.
Proof.
  intros Hwf [Hr Hc]. simpl in Hr, Hc. unfold board_getitem, board_cell. simpl.
  destruct (getitem_in_range board r) as (board_row & Hrow & ->).
  { destruct Hwf as [-> _]. lia. }
  pose proof (board_wf_row _ _ _ _ Hwf Hrow) as Hlen.
  destruct (getitem_in_range board_row c) as (cell & Hcell & Hget); [lia|].
  exists cell. rewrite Hrow. simpl. by rewrite Hget.
Qed.

Lemma board_setitem_in_grid board_size (board : list (list (option ascii))) r c x :
  board_wf board_size board → in_grid board_size (r, c) →
  ∃ board', board_setitem board r c x = Ok board' ∧
    board_wf board_size board' ∧
    board_cell board' (r, c) = Some x ∧
    (∀ p : Z * Z, 0 ≤ p.1 → 0 ≤ p.2 → p ≠ (r, c) →
       board_cell board' p = board_cell board p).
Proof.
  intros Hwf [Hr Hc]. simpl in Hr, Hc. unfold board_setitem.
  destruct (getitem_in_range board r) as (board_row & Hrow & ->).
  { destruct Hwf as [-> _]. lia. }
  pose proof (board_wf_row _ _ _ _ Hwf Hrow) as Hlen. simpl.
  rewrite setitem_in_range by lia. simpl.
  rewrite setitem_in_range by (destruct Hwf as [-> _]; lia).
  eexists. split; [done|]. split_and!.
  - destruct Hwf as [Hl Hrows]. split; [by rewrite length_insert|].
    apply Forall_insert; [done|]. by rewrite length_insert.
  - unfold board_cell. simpl. rewrite list_lookup_insert_eq.
    + simpl. apply list_lookup_insert_eq. lia.
    + destruct Hwf as [-> _]. lia.
  - intros [r' c'] Hr' Hc' Hne. simpl in Hr', Hc'. unfold board_cell. simpl.
    destruct (decide (Z.to_nat r = Z.to_nat r')) as [Heq|Hner].
    + rewrite <- Heq, list_lookup_insert_eq, Hrow by (destruct Hwf as [-> _]; lia).
      simpl. apply list_lookup_insert_ne. intros Heqc.
      apply Hne. f_equal; lia.
    + by rewrite list_lookup_insert_ne.
Qed.

(** ** Placement checker *)

Lemma elem_of_none_or_char (cell : option ascii) (char : ascii) :
  cell ∈ [None; Some char] ↔ cell = None ∨ cell = Some char.
Proof. rewrite !elem_of_cons, elem_of_nil. tauto. Qed.

Lemma can_place_word_from_spec board_size (board : list (list (option ascii)))
    (position direction : Z * Z) (word : string) (k : nat) :
  board_wf board_size board →
  ∃ b : bool,
    can_place_word_from board board_size (Z.of_nat k) word position direction = Ok b ∧
    (b = true ↔
       ∀ i ch, String.get i word = Some ch →
         in_grid board_size (cell_of position direction (k + i)) ∧
         (board_cell board (cell_of position direction (k + i)) = Some None ∨
          board_cell board (cell_of position direction (k + i)) = Some (Some ch))) ∧
    (b = false ↔
       ∃ i ch, String.get i word = Some ch ∧
         (¬ in_grid board_size (cell_of position direction (k + i)) ∨
          ∃ ch', board_cell board (cell_of position direction (k + i)) = Some (Some ch')
                 ∧ ch' ≠ ch)).
Proof.
  intros Hwf. destruct position as [row col], direction as [d_row d_col].
  revert k. induction word as [|char word IH]; intros k; simpl.
  { exists true. split_and!; [done|..].
    - split; [|done]. intros _ i ch. by destruct i.
    - split; [done|]. intros (i & ch & Hget & _). by destruct i. }
  set (r := row + Z.of_nat k * d_row). set (c := col + Z.of_nat k * d_col).
  assert (cell_of (row, col) (d_row, d_col) (k + 0) = (r, c)) as Hcell0
    by (unfold cell_of; simpl; by rewrite Nat.add_0_r).
  case_bool_decide as Hout.
  { exists false. split_and!; [done|..].
    - split; [done|]. intros Hall. destruct (Hall 0%nat char eq_refl) as [[??] _].
      rewrite Hcell0 in *. simpl in *. lia.
    - split; [|done]. intros _. exists 0%nat, char. split; [done|]. left.
      rewrite Hcell0. unfold in_grid. simpl. lia. }
  assert (in_grid board_size (r, c)) as Hin by (unfold in_grid; simpl; lia).
  destruct (board_getitem_in_grid _ _ _ _ Hwf Hin) as (cell & Hcell & ->). simpl.
  case_bool_decide as Hconflict; rewrite elem_of_none_or_char in Hconflict.
  { exists false. split_and!; [done|..].
    - split; [done|]. intros Hall. destruct (Hall 0%nat char eq_refl) as [_ Hc0].
      rewrite Hcell0, Hcell in Hc0. exfalso. apply Hconflict.
      destruct Hc0 as [[= <-]|[= <-]]; auto.
    - split; [|done]. intros _. exists 0%nat, char. split; [done|]. right.
      rewrite Hcell0, Hcell. destruct cell as [ch'|]; [|tauto].
      exists ch'. split; [done|]. intros ->. tauto. }
  rename Hconflict into Hcell'.
  replace (Z.of_nat k + 1) with (Z.of_nat (S k)) by lia.
  destruct (IH (S k)) as (b & -> & Htrue & Hfalse). exists b. split_and!; [done|..].
  - rewrite Htrue. split.
    + intros Hall [|i] ch Hget; simpl in Hget.
      * injection Hget as <-. rewrite Hcell0, Hcell. split; [done|].
        destruct Hcell' as [->| ->]; auto.
      * replace (k + S i)%nat with (S k + i)%nat by lia. by apply Hall.
    + intros Hall i ch Hget. replace (S k + i)%nat with (k + S i)%nat by lia.
      by apply Hall.
  - rewrite Hfalse. split.
    + intros (i & ch & Hget & Hbad). exists (S i), ch. split; [done|].
      by replace (k + S i)%nat with (S k + i)%nat by lia.
    + intros ([|i] & ch & Hget & Hbad); simpl in Hget.
      * injection Hget as <-. rewrite Hcell0, Hcell in Hbad. exfalso.
        destruct Hbad as [Hbad|(ch' & [= ->] & Hne)]; [done|].
        destruct Hcell' as [?|[= ?]]; done.
      * exists i, ch. split; [done|].
        by replace (S k + i)%nat with (k + S i)%nat by lia.
Qed.

Lemma can_place_word_answer board_size (board : list (list (option ascii)))
    (word : string) (position direction : Z * Z) :
  board_wf board_size board →
  ∃ b : bool,
    can_place_word board board_size word position direction = Ok b ∧
    (b = true ↔ fits board board_size word position direction).
Proof.
  intros Hwf.
  destruct (can_place_word_from_spec board_size board position direction word 0 Hwf)
    as (b & Hrun & Htrue & _).
  exists b. by split.
Qed.

(** C3: on an N×N grid [can_place_word] always answers, and it answers
    [True] exactly when every cell [position + i·direction], for [i] an
    index of the word, lies inside [0, N) in both coordinates and is empty
    or holds [word[i]]; it answers [False] exactly when some cell is out of
    bounds or holds a different letter. *)
Theorem can_place_word_iff_fits board_size (board : list (list (option ascii)))
    (word : string) (position direction : Z * Z) :
  board_wf board_size board →
  ∃ b : bool,
    can_place_word board board_size word position direction = Ok b ∧
    (b = true ↔ fits board board_size word position direction) ∧
    (b = false ↔
       ∃ i ch, String.get i word = Some ch ∧
         (¬ in_grid board_size (cell_of position direction i) ∨
          ∃ ch', board_cell board (cell_of position direction i) = Some (Some ch')
                 ∧ ch' ≠ ch)).
Proof.
  intros Hwf.
  destruct (can_place_word_from_spec board_size board position direction word 0 Hwf)
    as (b & Hrun & Htrue & Hfalse).
  exists b. by split_and!.
Qed.

(** ** Placement *)

Lemma cell_of_inj (position direction : Z * Z) (i j : nat) :
  direction ≠ (0, 0) →
  cell_of position direction i = cell_of position direction j → i = j.
Proof.
  destruct position as [row col], direction as [d_row d_col].
  unfold cell_of; simpl. intros Hne [= Hr Hc].
  destruct (decide (d_row = 0)) as [->|Hd_row].
  - destruct (decide (d_col = 0)) as [->|Hd_col]; [done|].
    assert (Z.of_nat i * d_col = Z.of_nat j * d_col) as Hmul by lia.
    apply Z.mul_reg_r in Hmul; [lia|done].
  - assert (Z.of_nat i * d_row = Z.of_nat j * d_row) as Hmul by lia.
    apply Z.mul_reg_r in Hmul; [lia|done].
Qed.

Lemma cell_of_nonneg board_size position direction i :
  in_grid board_size (cell_of position direction i) →
  0 ≤ (cell_of position direction i).1 ∧ 0 ≤ (cell_of position direction i).2.
Proof. unfold in_grid. lia. Qed.

Lemma letters_kept_refl board : letters_kept board board.
Proof. by intros p ch _ _ Hp. Qed.

Lemma letters_kept_trans board1 board2 board3 :
  letters_kept board1 board2 → letters_kept board2 board3 →
  letters_kept board1 board3.
Proof. intros H12 H23 p ch Hr Hc Hp. apply H23, H12; done. Qed.

Lemma reads_kept board board' board_size word position direction :
  letters_kept board board' →
  reads board board_size word position direction →
  reads board' board_size word position direction.
Proof.
  intros Hkept Hreads i ch Hget. destruct (Hreads i ch Hget) as [Hin Hcell].
  split; [done|]. apply cell_of_nonneg in Hin as [Hr Hc]. by apply Hkept.
Qed.

(** Writing a word where it fits: the call returns, the grid keeps its
    size, every letter already on the grid is still there, the word can be
    read along its cells, and no other cell has changed. *)
Lemma place_word_from_spec board_size (position direction : Z * Z) (word : string) :
  direction ≠ (0, 0) →
  ∀ (k : nat) (board : list (list (option ascii))),
  board_wf board_size board →
  (∀ i ch, String.get i word = Some ch →
     in_grid board_size (cell_of position direction (k + i)) ∧
     (board_cell board (cell_of position direction (k + i)) = Some None ∨
      board_cell board (cell_of position direction (k + i)) = Some (Some ch))) →
  ∃ board',
    place_word_from board (Z.of_nat k) word position direction = Ok board' ∧
    board_wf board_size board' ∧
    letters_kept board board' ∧
    (∀ i ch, String.get i word = Some ch →
       board_cell board' (cell_of position direction (k + i)) = Some (Some ch)) ∧
    (∀ p : Z * Z, 0 ≤ p.1 → 0 ≤ p.2 →
       (∀ i, is_Some (String.get i word) → cell_of position direction (k + i) ≠ p) →
       board_cell board' p = board_cell board p) ∧
    (∀ (p : Z * Z) ch, 0 ≤ p.1 → 0 ≤ p.2 →
       board_cell board' p = Some (Some ch) →
       board_cell board p = Some (Some ch) ∨ ∃ i, String.get i word = Some ch).
Proof.
  intros Hdir. destruct position as [row col], direction as [d_row d_col].
  induction word as [|char word IH]; intros k board Hwf Hfits.
  { exists board. simpl.
    split_and!; [done|done|apply letters_kept_refl| |done|auto].
    intros i ch Hget. by destruct i. }
  destruct (Hfits 0%nat char eq_refl) as [Hin0 Hcell0].
  pose proof (cell_of_nonneg _ _ _ _ Hin0) as [Hr0 Hc0].
  assert (cell_of (row, col) (d_row, d_col) (k + 0)
          = (row + Z.of_nat k * d_row, col + Z.of_nat k * d_col)) as Hcell_eq
    by (unfold cell_of; simpl; by rewrite Nat.add_0_r).
  rewrite Hcell_eq in Hin0, Hcell0, Hr0, Hc0.
  destruct (board_setitem_in_grid board_size board _ _ (Some char) Hwf Hin0)
    as (board1 & Hrun1 & Hwf1 & Hset & Hframe).
  cbn [place_word_from]. rewrite Hrun1. cbn [mbind result_bind].
  replace (Z.of_nat k + 1) with (Z.of_nat (S k)) by lia.
  assert (∀ i, cell_of (row, col) (d_row, d_col) (S k + i)
               ≠ (row + Z.of_nat k * d_row, col + Z.of_nat k * d_col)) as Hfresh.
  { intros i Heq. rewrite <- Hcell_eq in Heq.
    apply cell_of_inj in Heq; [lia|done]. }
  destruct (IH (S k) board1 Hwf1)
    as (board' & -> & Hwf' & Hkept & Hreads & Hrest & Hnew).
  { intros i ch Hget. replace (S k + i)%nat with (k + S i)%nat by lia.
    destruct (Hfits (S i) ch Hget) as [Hin Hcell]. split; [done|].
    pose proof (cell_of_nonneg _ _ _ _ Hin) as [??].
    rewrite Hframe; [done..|].
    replace (k + S i)%nat with (S k + i)%nat by lia. apply Hfresh. }
  exists board'. split_and!; [done|done|..].
  - intros p ch Hr Hc Hp.
    destruct (decide (p = (row + Z.of_nat k * d_row, col + Z.of_nat k * d_col)))
      as [->|Hne].
    + apply Hkept; [done..|]. rewrite Hset. rewrite Hp in Hcell0.
      destruct Hcell0 as [[=]|[= ->]]. done.
    + apply Hkept; [done..|]. by rewrite Hframe.
  - intros [|i] ch Hget; simpl in Hget.
    + injection Hget as <-. rewrite Hcell_eq. by apply Hkept.
    + replace (k + S i)%nat with (S k + i)%nat by lia. by apply Hreads.
  - intros p Hr Hc Hoff. rewrite Hrest; [|done..|].
    + apply Hframe; [done..|]. intros ->. apply (Hoff 0%nat); [by eexists|done].
    + intros i Hi. replace (S k + i)%nat with (k + S i)%nat by lia. by apply Hoff.
  - intros p ch Hr Hc Hp.
    destruct (Hnew p ch Hr Hc Hp) as [Hp1|[i Hi]]; [|right; by exists (S i)].
    destruct (decide (p = (row + Z.of_nat k * d_row, col + Z.of_nat k * d_col)))
      as [->|Hne].
    + right. exists 0%nat. rewrite Hset in Hp1. by injection Hp1 as ->.
    + left. by rewrite <- Hframe.
Qed.

Lemma place_word_spec board_size (board : list (list (option ascii)))
    (word : string) (position direction : Z * Z) :
  direction ≠ (0, 0) →
  board_wf board_size board →
  fits board board_size word position direction →
  ∃ board',
    place_word board word position direction = Ok board' ∧
    board_wf board_size board' ∧
    letters_kept board board' ∧
    reads board' board_size word position direction ∧
    (∀ (p : Z * Z) ch, 0 ≤ p.1 → 0 ≤ p.2 →
       board_cell board' p = Some (Some ch) →
       board_cell board p = Some (Some ch) ∨ ∃ i, String.get i word = Some ch).
Proof.
  intros Hdir Hwf Hfits.
  destruct (place_word_from_spec board_size position direction word Hdir 0 board Hwf)
    as (board' & Hrun & Hwf' & Hkept & Hreads & _ & Hnew); [done|].
  exists board'. split_and!; [done..| |done].
  intros i ch Hget. split; [by apply Hfits in Hget as [? _]|by apply Hreads].
Qed.

(** Why the zero vector has to be kept out of the direction set: with it,
    the checker accepts a two-letter word on an empty cell and the second
    letter replaces the first. *)
Example zero_direction_overwrites :
  can_place_word [[None]] 1 "AB" (0, 0) (0, 0) = Ok true ∧
  place_word [[None]] "AB" (0, 0) (0, 0) = Ok [[Some "B"%char]].
Proof. split; vm_compute; reflexivity. Qed.

(** ** Placement engine: one attempt *)

Lemma result_bind_Ok {A B} (m : result A) (k : A → result B) (b : B) :
  m ≫= k = Ok b ↔ ∃ a, m = Ok a ∧ k a = Ok b.
Proof.
  destruct m as [a|e]; simpl; split; try done.
  - intros Hk. by exists a.
  - by intros (a' & [= <-] & Hk).
  - by intros (a' & [=] & _).
Qed.

Lemma list_pop_Ok {A} (l l' : list A) (x : A) :
  list_pop l = Ok (x, l') ↔ l = l' ++ [x].
Proof.
  unfold list_pop. split.
  - destruct (last l) as [y|] eqn:Hlast; [|done]. intros [= <- <-].
    apply last_Some in Hlast as [l' ->]. by rewrite List.removelast_last.
  - intros ->. by rewrite last_snoc, List.removelast_last.
Qed.

Lemma list_pop_nonempty {A} (l : list A) :
  l ≠ [] → ∃ x l', list_pop l = Ok (x, l').
Proof.
  intros Hne. apply last_is_Some in Hne as [x Hx].
  apply last_Some in Hx as [l' ->]. exists x, l'. by apply list_pop_Ok.
Qed.

Lemma random_choice_Some `{RandomSource G} {A} (g : G) (l : list A) (x : A) :
  (random_choice g l).1 = Some x → x ∈ l.
Proof. intros Hx. pose proof (random_choice_spec g l) as Hspec. by rewrite Hx in Hspec. Qed.

Lemma random_choice_nonempty `{RandomSource G} {A} (g : G) (l : list A) :
  l ≠ [] → ∃ x, (random_choice g l).1 = Some x.
Proof.
  intros Hne. pose proof (random_choice_spec g l) as Hspec.
  destruct (random_choice g l).1 as [x|]; [by exists x|done].
Qed.


(** What a returning iteration of the [while] loop has done. *)
Lemma attempt_Ok `{RandomSource G} board_size word directions
    (st st' : Engine G) (placed : bool) :
  attempt board_size word directions st = Ok (st', placed) →
  ∃ position direction,
    st_positions st = st_positions st' ++ [position] ∧
    st_pop_positions st' = st_pop_positions st ++ [position] ∧
    direction ∈ directions ∧
    can_place_word (st_board st) board_size word position direction = Ok placed ∧
    if placed then
      place_word (st_board st) word position direction = Ok (st_board st') ∧
      st_words st' = st_words st ++ [word] ∧
      st_max_length st' = Z.max (Z.of_nat (String.length word)) (st_max_length st) ∧
      st_placements st' = st_placements st ++ [(word, position, direction)]
    else
      st_board st' = st_board st ∧ st_words st' = st_words st ∧
      st_max_length st' = st_max_length st ∧
      st_placements st' = st_placements st.
Proof.
  unfold attempt. intros Hrun.
  apply result_bind_Ok in Hrun as ([position positions] & Hpop & Hrun).
  apply list_pop_Ok in Hpop.
  destruct (random_choice (st_rng st) directions) as [chosen g] eqn:Hchoice.
  apply result_bind_Ok in Hrun as (direction & Hchosen & Hrun).
  destruct chosen as [d|]; [|done]. injection Hchosen as ->.
  assert (direction ∈ directions) as Hdir
    by (apply (random_choice_Some (st_rng st)); by rewrite Hchoice).
  apply result_bind_Ok in Hrun as (ok & Hcan & Hrun).
  exists position, direction. destruct ok.
  - apply result_bind_Ok in Hrun as (board & Hplace & [= <- <-]). by simpl.
  - injection Hrun as <- <-. by simpl.
Qed.

(** The pool strictly shrinks: an iteration removes exactly one position. *)
Lemma attempt_shrinks `{RandomSource G} board_size word directions
    (st st' : Engine G) (placed : bool) :
  attempt board_size word directions st = Ok (st', placed) →
  S (length (st_positions st')) = length (st_positions st).
Proof.
  intros Hrun. apply attempt_Ok in Hrun as (position & direction & -> & _).
  rewrite length_app. simpl. lia.
Qed.

Lemma attempt_pool_inv `{RandomSource G} board_size word directions
    (st st' : Engine G) (placed : bool) :
  attempt board_size word directions st = Ok (st', placed) →
  pool_inv board_size st → pool_inv board_size st'.
Proof.
  intros Hrun. apply attempt_Ok in Hrun as (position & direction & Hpos & Hpop & _).
  unfold pool_inv. rewrite Hpos, Hpop. intros <-.
  rewrite <- !(assoc_L (++)). f_equiv. apply Permutation_app_comm.
Qed.

Lemma placement_ok_kept board board' board_size directions pl :
  letters_kept board board' →
  placement_ok board board_size directions pl →
  placement_ok board' board_size directions pl.
Proof.
  intros Hkept (Hdir & Hpos & Hreads). split_and!; [done..|].
  by eapply reads_kept.
Qed.

Lemma attempt_engine_inv `{RandomSource G} board_size word directions board0
    (st st' : Engine G) (placed : bool) :
  (0, 0) ∉ directions →
  attempt board_size word directions st = Ok (st', placed) →
  pool_inv board_size st →
  engine_inv board_size directions board0 st →
  engine_inv board_size directions board0 st'.
Proof.
  intros Hzero Hrun Hpool (Hwf & Hkept & Hpls & Hwords).
  apply attempt_Ok in Hrun
    as (position & direction & Hpos & Hpop & Hdir & Hcan & Hrest).
  destruct placed.
  - destruct Hrest as (Hplace & Hwords' & _ & Hpls').
    destruct (can_place_word_answer board_size (st_board st) word
                position direction Hwf) as (b & Hcan' & Htrue).
    rewrite Hcan in Hcan'. injection Hcan' as <-.
    destruct (place_word_spec board_size (st_board st) word position direction)
      as (board' & Hplace' & Hwf' & Hkept' & Hreads & _);
      [by intros ->|done|by apply Htrue|].
    rewrite Hplace in Hplace'. injection Hplace' as <-.
    split_and!.
    + done.
    + by eapply letters_kept_trans.
    + rewrite Hpls'. apply Forall_app. split.
      * eapply Forall_impl; [done|]. intros pl Hpl. by eapply placement_ok_kept.
      * apply Forall_singleton. split_and!; [done| |done]. simpl.
        apply (elem_of_Permutation_proper _ _ _ Hpool).
        rewrite Hpos, !elem_of_app, list_elem_of_singleton. auto.
    + by rewrite Hwords', Hpls', fmap_app, Hwords.
  - destruct Hrest as (Hboard & Hwords' & _ & Hpls').
    unfold engine_inv. rewrite Hboard, Hwords', Hpls'. by split_and!.
Qed.

Lemma attempt_returns `{RandomSource G} board_size word directions (st : Engine G) :
  (0, 0) ∉ directions → directions ≠ [] →
  board_wf board_size (st_board st) →
  st_positions st ≠ [] →
  ∃ st' placed, attempt board_size word directions st = Ok (st', placed).
Proof.
  intros Hzero Hdirs Hwf Hpos. unfold attempt.
  destruct (list_pop_nonempty _ Hpos) as (position & positions & ->). simpl.
  destruct (random_choice_nonempty (st_rng st) directions Hdirs) as (direction & Hd).
  pose proof (random_choice_Some _ _ _ Hd) as Hin.
  destruct (random_choice (st_rng st) directions) as [chosen g].
  simpl in Hd. subst chosen. simpl.
  destruct (can_place_word_answer board_size (st_board st) word
              position direction Hwf) as (b & -> & Htrue).
  simpl. destruct b; [|by eexists _, _].
  destruct (place_word_spec board_size (st_board st) word position direction)
    as (board' & -> & _); [by intros ->|done|by apply Htrue|].
  simpl. by eexists _, _.
Qed.

(** ** Placement engine: the loops *)

Section loops.
Context `{RandomSource G}.
Variables (board_size : Z) (directions : list (Z * Z)).

(** The [while] loop ends within as many iterations as the pool has
    positions. *)
Lemma attempts_terminates (fuel : nat) (word : string) (st : Engine G) (placed : bool) :
  (length (st_positions st) ≤ fuel)%nat →
  is_Some (attempts fuel board_size word directions st placed).
Proof.
  revert st placed. induction fuel as [|fuel IH]; intros st placed Hlen.
  - simpl. rewrite bool_decide_eq_false_2 by lia. rewrite andb_false_r. by eexists.
  - simpl. destruct (negb placed && _); [|by eexists].
    destruct (attempt board_size word directions st) as [[st' placed']|e] eqn:Hrun;
      [|by eexists].
    apply IH. apply attempt_shrinks in Hrun. lia.
Qed.

(** Whatever every iteration preserves holds when the loop returns. *)
Lemma attempts_preserves (P : Engine G → Prop) (word : string) :
  (∀ st st' placed, P st →
     attempt board_size word directions st = Ok (st', placed) → P st') →
  ∀ (fuel : nat) (st st' : Engine G) (placed : bool),
    P st → attempts fuel board_size word directions st placed = Some (Ok st') → P st'.
Proof.
  intros Hstep. induction fuel as [|fuel IH]; intros st st' placed HP; simpl.
  - destruct (negb placed && _); [done|]. by intros [= <-].
  - destruct (negb placed && _); [|by intros [= <-]].
    destruct (attempt board_size word directions st) as [[st1 placed1]|e] eqn:Hrun;
      [|done].
    apply IH. by eapply Hstep.
Qed.

Lemma attempt_engine_ok board0 word (st st' : Engine G) (placed : bool) :
  (0, 0) ∉ directions →
  engine_ok board_size directions board0 st →
  attempt board_size word directions st = Ok (st', placed) →
  engine_ok board_size directions board0 st'.
Proof.
  intros Hzero [Hpool Hinv] Hrun. split.
  - by eapply attempt_pool_inv.
  - by eapply attempt_engine_inv.
Qed.

Lemma attempts_returns board0 (fuel : nat) (word : string) (st : Engine G) (placed : bool) :
  (0, 0) ∉ directions → directions ≠ [] →
  engine_ok board_size directions board0 st →
  (length (st_positions st) ≤ fuel)%nat →
  ∃ st', attempts fuel board_size word directions st placed = Some (Ok st').
Proof.
  intros Hzero Hdirs. revert st placed.
  induction fuel as [|fuel IH]; intros st placed Hok Hlen.
  - simpl. rewrite bool_decide_eq_false_2 by lia. rewrite andb_false_r. by eexists.
  - simpl. destruct (negb placed && _) eqn:Hcond; [|by eexists].
    apply andb_true_iff in Hcond as [_ Hpos]. apply bool_decide_eq_true_1 in Hpos.
    destruct (attempt_returns board_size word directions st) as (st' & placed' & Hrun);
      [done|done|apply Hok|by intros Hnil; rewrite Hnil in Hpos|].
    rewrite Hrun. apply IH.
    + by eapply attempt_engine_ok.
    + apply attempt_shrinks in Hrun. lia.
Qed.

Lemma next_word_positions_length (st : Engine G) :
  pool_inv board_size st →
  length (st_positions (next_word st)) = length (initial_positions board_size).
Proof.
  unfold pool_inv, next_word. intros Hpool.
  pose proof (random_shuffle_perm (st_rng st) (st_positions st ++ st_pop_positions st))
    as Hperm.
  destruct (random_shuffle _ _) as [positions g]. simpl in *.
  by rewrite Hperm, Hpool.
Qed.

Lemma next_word_pool_inv (st : Engine G) :
  pool_inv board_size st → pool_inv board_size (next_word st).
Proof.
  unfold pool_inv, next_word. intros Hpool.
  pose proof (random_shuffle_perm (st_rng st) (st_positions st ++ st_pop_positions st))
    as Hperm.
  destruct (random_shuffle _ _) as [positions g]. simpl in *.
  by rewrite app_nil_r, Hperm.
Qed.

Lemma next_word_fields (st : Engine G) :
  st_board (next_word st) = st_board st ∧
  st_words (next_word st) = st_words st ∧
  st_max_length (next_word st) = st_max_length st ∧
  st_placements (next_word st) = st_placements st ∧
  st_pop_positions (next_word st) = [].
Proof. unfold next_word. by destruct (random_shuffle _ _). Qed.

Lemma next_word_engine_ok board0 (st : Engine G) :
  engine_ok board_size directions board0 st → engine_ok board_size directions board0 (next_word st).
Proof.
  intros [Hpool Hinv]. split; [by apply next_word_pool_inv|].
  destruct (next_word_fields st) as (Hb & Hw & _ & Hp & _).
  unfold engine_inv. by rewrite Hb, Hw, Hp.
Qed.

(** The whole [for] loop ends when every [while] loop is given as many
    iterations as the initial pool has positions. *)
Lemma for_words_terminates (fuel : nat) (vocabulary : list string) (st : Engine G) :
  (length (initial_positions board_size) ≤ fuel)%nat →
  pool_inv board_size st →
  is_Some (for_words fuel board_size vocabulary directions st).
Proof.
  intros Hfuel. revert st.
  induction vocabulary as [|word vocabulary IH]; intros st Hpool; simpl; [by eexists|].
  destruct (attempts_terminates fuel word (next_word st) false) as [outcome Hrun].
  { by rewrite next_word_positions_length. }
  rewrite Hrun. destruct outcome as [st'|e]; [|by eexists].
  apply IH. eapply (attempts_preserves (pool_inv board_size)); [|..|done].
  - intros st1 st2 placed Hpool1 Hstep. by eapply attempt_pool_inv.
  - by apply next_word_pool_inv.
Qed.

Lemma for_words_preserves board0 (fuel : nat) (vocabulary : list string)
    (st st' : Engine G) :
  (0, 0) ∉ directions →
  engine_ok board_size directions board0 st →
  for_words fuel board_size vocabulary directions st = Some (Ok st') →
  engine_ok board_size directions board0 st'.
Proof.
  intros Hzero. revert st.
  induction vocabulary as [|word vocabulary IH]; intros st Hok; simpl.
  { by intros [= <-]. }
  destruct (attempts fuel board_size word directions (next_word st) false)
    as [[st1|e]|] eqn:Hrun; [|done..].
  apply IH. eapply (attempts_preserves (engine_ok board_size directions board0)); [|..|done].
  - intros st2 st3 placed Hok2 Hstep. by eapply attempt_engine_ok.
  - by apply next_word_engine_ok.
Qed.

Lemma for_words_returns board0 (fuel : nat) (vocabulary : list string) (st : Engine G) :
  (0, 0) ∉ directions → directions ≠ [] →
  (length (initial_positions board_size) ≤ fuel)%nat →
  engine_ok board_size directions board0 st →
  ∃ st', for_words fuel board_size vocabulary directions st = Some (Ok st').
Proof.
  intros Hzero Hdirs Hfuel. revert st.
  induction vocabulary as [|word vocabulary IH]; intros st Hok; simpl; [by eexists|].
  destruct (attempts_returns board0 fuel word (next_word st) false) as [st1 Hrun];
    [done|done|by apply next_word_engine_ok| |].
  { rewrite next_word_positions_length; [done|apply Hok]. }
  rewrite Hrun. apply IH. eapply (attempts_preserves (engine_ok board_size directions board0)); [|..|done].
  - intros st2 st3 placed Hok2 Hstep. by eapply attempt_engine_ok.
  - by apply next_word_engine_ok.
Qed.

Lemma populate_start_engine_ok (board : list (list (option ascii))) (g : G) :
  board_wf board_size board → engine_ok board_size directions board (populate_start board board_size g).
Proof.
  intros Hwf. split.
  - unfold pool_inv. simpl. by rewrite app_nil_r.
  - split_and!; [done|apply letters_kept_refl|constructor|done].
Qed.

End loops.

(** ** Placement engine: the stated properties *)

Lemma create_all_directions_nonzero : (0, 0) ∉ create_all_directions.
Proof.
  unfold create_all_directions. rewrite list_elem_of_filter. simpl. tauto.
Qed.

Lemma length_initial_positions board_size :
  length (initial_positions board_size)
  = (Z.to_nat (board_size - 1) * Z.to_nat (board_size - 1))%nat.
Proof.
  unfold initial_positions, range. rewrite length_product, length_seqZ.
  by replace (board_size - 1 - 0) with (board_size - 1) by lia.
Qed.

Lemma init_board_wf board_size : board_wf board_size (init_board board_size).
Proof.
  unfold init_board, range. split.
  - rewrite length_fmap, length_seqZ. lia.
  - apply Forall_fmap, Forall_forall. intros k _. simpl.
    rewrite length_fmap, length_seqZ. lia.
Qed.

Lemma attempt_letters_kept `{RandomSource G} board_size word directions
    (st st' : Engine G) (placed : bool) :
  (0, 0) ∉ directions →
  board_wf board_size (st_board st) →
  attempt board_size word directions st = Ok (st', placed) →
  letters_kept (st_board st) (st_board st').
Proof.
  intros Hzero Hwf Hrun.
  apply attempt_Ok in Hrun as (position & direction & _ & _ & Hdir & Hcan & Hrest).
  destruct placed.
  - destruct Hrest as (Hplace & _).
    destruct (can_place_word_answer board_size (st_board st) word
                position direction Hwf) as (b & Hcan' & Htrue).
    rewrite Hcan in Hcan'. injection Hcan' as <-.
    destruct (place_word_spec board_size (st_board st) word position direction)
      as (board' & Hplace' & _ & Hkept & _);
      [by intros ->|done|by apply Htrue|].
    rewrite Hplace in Hplace'. by injection Hplace' as <-.
  - destruct Hrest as (-> & _). apply letters_kept_refl.
Qed.

Lemma populate_board_run_outcome `{RandomSource G} (fuel : nat)
    (board : list (list (option ascii))) (board_size : Z)
    (vocabulary : list string) (directions : list (Z * Z)) (g : G) :
  board_wf board_size board →
  (0, 0) ∉ directions →
  (Z.to_nat (board_size - 1) * Z.to_nat (board_size - 1) ≤ fuel)%nat →
  ∃ outcome,
    populate_board_run fuel board board_size vocabulary directions g = Some outcome ∧
    (directions ≠ [] → ∃ st, outcome = Ok st) ∧
    (∀ st, outcome = Ok st → engine_ok board_size directions board st).
Proof.
  intros Hwf Hzero Hfuel. rewrite <- length_initial_positions in Hfuel.
  pose proof (populate_start_engine_ok board_size directions board g Hwf) as Hstart.
  unfold populate_board_run.
  destruct (for_words_terminates board_size directions fuel vocabulary
              (populate_start board board_size g) Hfuel) as [outcome Hrun];
    [apply Hstart|].
  exists outcome. split_and!; [done|..].
  - intros Hdirs.
    destruct (for_words_returns board_size directions board fuel vocabulary
                (populate_start board board_size g)) as [st Hrun']; [done..|].
    rewrite Hrun in Hrun'. injection Hrun' as ->. by exists st.
  - intros st ->. by eapply for_words_preserves.
Qed.

(** C4: on an N×N grid and with a set of non-zero directions,
    [populate_board] ends, it returns whenever the direction set is not
    empty, and when it returns every word of the returned list has an
    accepted placement (a start drawn from the pool and a direction drawn
    from the direction set, recorded when [place_word] was called) along
    which every cell lies inside [0, N) in both coordinates and holds
    exactly the word's character. *)
Theorem populate_board_words_read_on_grid `{RandomSource G} (fuel : nat)
    (board : list (list (option ascii))) (board_size : Z)
    (vocabulary : list string) (directions : list (Z * Z)) (g : G) :
  board_wf board_size board →
  (0, 0) ∉ directions →
  (Z.to_nat (board_size - 1) * Z.to_nat (board_size - 1) ≤ fuel)%nat →
  ∃ outcome,
    populate_board_run fuel board board_size vocabulary directions g = Some outcome ∧
    (directions ≠ [] → ∃ st, outcome = Ok st) ∧
    ∀ st, outcome = Ok st →
      populate_board fuel board board_size vocabulary directions g
        = Some (Ok (st_words st, st_max_length st)) ∧
      ∀ W, W ∈ st_words st →
        ∃ position direction,
          (W, position, direction) ∈ st_placements st ∧
          position ∈ initial_positions board_size ∧
          direction ∈ directions ∧
          reads (st_board st) board_size W position direction.
Proof.
  intros Hwf Hzero Hfuel.
  destruct (populate_board_run_outcome fuel board board_size vocabulary directions g)
    as (outcome & Hrun & Hret & Hok); [done..|].
  exists outcome. split_and!; [done..|].
  intros st ->. split.
  - unfold populate_board. by rewrite Hrun.
  - destruct (Hok st eq_refl) as (_ & _ & _ & Hpls & Hwords).
    intros W HW. rewrite Hwords in HW.
    apply list_elem_of_fmap in HW as ([[W' position] direction] & -> & Hin).
    rewrite Forall_forall in Hpls. destruct (Hpls _ Hin) as (Hd & Hp & Hreads).
    by exists position, direction.
Qed.

(** C5: on an N×N grid and with a set of non-zero directions, no iteration
    of the engine replaces a letter: a cell that holds a letter before an
    attempt holds the same letter after it, hence from the initial board to
    the final one; and when two accepted placements pass through the same
    cell, their words have the same character there. *)
Theorem populate_board_never_overwrites `{RandomSource G} (fuel : nat)
    (board : list (list (option ascii))) (board_size : Z)
    (vocabulary : list string) (directions : list (Z * Z)) (g : G) :
  board_wf board_size board →
  (0, 0) ∉ directions →
  (Z.to_nat (board_size - 1) * Z.to_nat (board_size - 1) ≤ fuel)%nat →
  (∀ word (st st' : Engine G) placed,
     board_wf board_size (st_board st) →
     attempt board_size word directions st = Ok (st', placed) →
     letters_kept (st_board st) (st_board st')) ∧
  ∃ outcome,
    populate_board_run fuel board board_size vocabulary directions g = Some outcome ∧
    ∀ st, outcome = Ok st →
      letters_kept board (st_board st) ∧
      ∀ W1 position1 direction1 W2 position2 direction2 i j ch1 ch2,
        (W1, position1, direction1) ∈ st_placements st →
        (W2, position2, direction2) ∈ st_placements st →
        String.get i W1 = Some ch1 →
        String.get j W2 = Some ch2 →
        cell_of position1 direction1 i = cell_of position2 direction2 j →
        ch1 = ch2 ∧
        board_cell (st_board st) (cell_of position1 direction1 i) = Some (Some ch1).
Proof.
  intros Hwf Hzero Hfuel. split.
  { intros word st st' placed Hwf' Hrun. by eapply attempt_letters_kept. }
  destruct (populate_board_run_outcome fuel board board_size vocabulary directions g)
    as (outcome & Hrun & _ & Hok); [done..|].
  exists outcome. split; [done|]. intros st ->.
  destruct (Hok st eq_refl) as (_ & _ & Hkept & Hpls & _). split; [done|].
  intros W1 p1 d1 W2 p2 d2 i j ch1 ch2 Hin1 Hin2 Hget1 Hget2 Hcell.
  rewrite Forall_forall in Hpls.
  destruct (Hpls _ Hin1) as (_ & _ & Hreads1).
  destruct (Hpls _ Hin2) as (_ & _ & Hreads2).
  destruct (Hreads1 i ch1 Hget1) as [_ Hc1].
  destruct (Hreads2 j ch2 Hget2) as [_ Hc2]. simpl in *.
  rewrite Hcell, Hc2 in Hc1. split; [congruence|]. by rewrite Hcell, Hc2, <- Hc1.
Qed.

(** C7: every iteration of the [while] loop removes one position from the
    pool, so the loop ends within as many iterations as the pool has
    positions, and [populate_board] ends (with a result or an exception)
    for every board, board size, vocabulary and direction set once each
    [while] loop is allowed (N-1)² iterations. *)
Theorem populate_board_terminates `{RandomSource G} (fuel : nat)
    (board : list (list (option ascii))) (board_size : Z)
    (vocabulary : list string) (directions : list (Z * Z)) (g : G) :
  (Z.to_nat (board_size - 1) * Z.to_nat (board_size - 1) ≤ fuel)%nat →
  (∀ word (st st' : Engine G) placed,
     attempt board_size word directions st = Ok (st', placed) →
     (length (st_positions st') < length (st_positions st))%nat) ∧
  (∀ word (st : Engine G) placed,
     (length (st_positions st) ≤ fuel)%nat →
     is_Some (attempts fuel board_size word directions st placed)) ∧
  is_Some (populate_board_run fuel board board_size vocabulary directions g) ∧
  is_Some (populate_board fuel board board_size vocabulary directions g).
Proof.
  intros Hfuel. rewrite <- length_initial_positions in Hfuel.
  assert (is_Some (populate_board_run fuel board board_size vocabulary directions g))
    as Hrun.
  { apply for_words_terminates; [done|].
    unfold pool_inv. simpl. by rewrite app_nil_r. }
  split_and!; [..|done|].
  - intros word st st' placed Hstep. apply attempt_shrinks in Hstep. lia.
  - intros word st placed Hlen. by apply attempts_terminates.
  - unfold populate_board. destruct Hrun as [[st|e] ->]; by eexists.
Qed.

(** ** The worked run *)

Ltac board_wf_by_computation := split; [reflexivity | repeat constructor].
Ltac not_elem_of_by_computation := apply (bool_decide_unpack _); vm_compute; exact I.
Ltac le_by_computation := vm_compute; lia.

Example example_run :
  populate_board_run 9 (init_board 4) 4 example_vocabulary create_all_directions
    example_tape
  = Some (Ok (MkEngine example_board []
                [(2, 2); (1, 2); (2, 1); (2, 0); (1, 0); (0, 2); (0, 0); (0, 1); (1, 1)]
                ["CAT"; "CAR"] 3 []
                [("CAT", (2, 0), (-1, 1)); ("CAR", (2, 2), (-1, -1))])).
Proof. vm_compute. reflexivity. Qed.

Lemma can_place_word_iff_fits_witness :
  board_wf 4 example_board ∧
  ∃ b : bool,
    can_place_word example_board 4 "CAB" (2, 2) (-1, -1) = Ok b ∧
    (b = true ↔ fits example_board 4 "CAB" (2, 2) (-1, -1)) ∧
    (b = false ↔
       ∃ i ch, String.get i "CAB" = Some ch ∧
         (¬ in_grid 4 (cell_of (2, 2) (-1, -1) i) ∨
          ∃ ch', board_cell example_board (cell_of (2, 2) (-1, -1) i) = Some (Some ch')
                 ∧ ch' ≠ ch)).
Proof.
  split; [board_wf_by_computation|].
  apply (can_place_word_iff_fits 4 example_board "CAB" (2, 2) (-1, -1)).
  board_wf_by_computation.
Defined.

Lemma populate_board_words_read_on_grid_witness :
  board_wf 4 (init_board 4) ∧
  ((0, 0) ∉ create_all_directions) ∧
  (Z.to_nat (4 - 1) * Z.to_nat (4 - 1) ≤ 9)%nat ∧
  ∃ outcome,
    populate_board_run 9 (init_board 4) 4 example_vocabulary create_all_directions
      example_tape = Some outcome ∧
    (create_all_directions ≠ [] → ∃ st, outcome = Ok st) ∧
    ∀ st, outcome = Ok st →
      populate_board 9 (init_board 4) 4 example_vocabulary create_all_directions
        example_tape = Some (Ok (st_words st, st_max_length st)) ∧
      ∀ W, W ∈ st_words st →
        ∃ position direction,
          (W, position, direction) ∈ st_placements st ∧
          position ∈ initial_positions 4 ∧
          direction ∈ create_all_directions ∧
          reads (st_board st) 4 W position direction.
Proof.
  split_and!;
    [board_wf_by_computation|not_elem_of_by_computation|le_by_computation|].
  apply (populate_board_words_read_on_grid 9 (init_board 4) 4 example_vocabulary
           create_all_directions example_tape);
    [board_wf_by_computation|not_elem_of_by_computation|le_by_computation].
Defined.

Lemma populate_board_never_overwrites_witness :
  board_wf 4 (init_board 4) ∧
  ((0, 0) ∉ create_all_directions) ∧
  (Z.to_nat (4 - 1) * Z.to_nat (4 - 1) ≤ 9)%nat ∧
  ∃ outcome,
    populate_board_run 9 (init_board 4) 4 example_vocabulary create_all_directions
      example_tape = Some outcome ∧
    ∀ st, outcome = Ok st →
      letters_kept (init_board 4) (st_board st) ∧
      ∀ W1 position1 direction1 W2 position2 direction2 i j ch1 ch2,
        (W1, position1, direction1) ∈ st_placements st →
        (W2, position2, direction2) ∈ st_placements st →
        String.get i W1 = Some ch1 →
        String.get j W2 = Some ch2 →
        cell_of position1 direction1 i = cell_of position2 direction2 j →
        ch1 = ch2 ∧
        board_cell (st_board st) (cell_of position1 direction1 i) = Some (Some ch1).
Proof.
  split_and!;
    [board_wf_by_computation|not_elem_of_by_computation|le_by_computation|].
  apply (populate_board_never_overwrites 9 (init_board 4) 4 example_vocabulary
           create_all_directions example_tape);
    [board_wf_by_computation|not_elem_of_by_computation|le_by_computation].
Defined.

Lemma populate_board_terminates_witness :
  (Z.to_nat (4 - 1) * Z.to_nat (4 - 1) ≤ 9)%nat ∧
  is_Some (populate_board 9 (init_board 4) 4 example_vocabulary create_all_directions
             example_tape).
Proof.
  split; [le_by_computation|].
  apply (populate_board_terminates 9 (init_board 4) 4 example_vocabulary
           create_all_directions example_tape).
  le_by_computation.
Defined.

(** ** Filler *)

Lemma chr_upper_letter (n : Z) : ord "A" ≤ n ≤ ord "Z" → is_upper_letter (chr n).
Proof.
  unfold is_upper_letter, ord, chr. intros Hn.
  change (Z.of_N (N_of_ascii "A")) with 65 in *.
  change (Z.of_N (N_of_ascii "Z")) with 90 in *.
  rewrite N_ascii_embedding by lia. lia.
Qed.

Lemma board_cell_is_Some board_size (board : list (list (option ascii))) (p : Z * Z) :
  board_wf board_size board → 0 ≤ p.1 → 0 ≤ p.2 →
  is_Some (board_cell board p) ↔ in_grid board_size p.
Proof.
  intros Hwf Hr Hc. destruct p as [r c]. simpl in *. split.
  - intros [cell Hcell]. unfold board_cell in Hcell. simpl in Hcell.
    destruct (board !! Z.to_nat r) as [board_row|] eqn:Hrow; [|done]. simpl in Hcell.
    pose proof (board_wf_row _ _ _ _ Hwf Hrow) as Hlen.
    apply lookup_lt_Some in Hrow, Hcell. destruct Hwf as [Hl _].
    unfold in_grid. simpl. lia.
  - intros Hin. destruct (board_getitem_in_grid _ _ _ _ Hwf Hin) as (cell & -> & _).
    by eexists.
Qed.

Lemma filled_from_refl board_size board :
  board_wf board_size board → filled_from board_size board board.
Proof. intros Hwf. split_and!; [done|done|apply letters_kept_refl|auto]. Qed.

Lemma filled_from_trans board_size board1 board2 board3 :
  filled_from board_size board1 board2 → filled_from board_size board2 board3 →
  filled_from board_size board1 board3.
Proof.
  intros (Hwf1 & Hwf2 & Hkept12 & Hnew12) (_ & Hwf3 & Hkept23 & Hnew23).
  split_and!; [done|done|..].
  - by eapply letters_kept_trans.
  - intros p ch Hr Hc Hp.
    destruct (Hnew23 p ch Hr Hc Hp) as [Hp2|[Hp2 Hup]]; [by apply Hnew12|].
    right. split; [|done].
    destruct (board_cell board1 p) as [[ch1|]|] eqn:Hp1; [|done|].
    + apply Hkept12 in Hp1; [congruence|done..].
    + assert (is_Some (board_cell board2 p)) as Hsome by (by eexists).
      apply (board_cell_is_Some board_size) in Hsome; [|done..].
      apply (board_cell_is_Some board_size board1) in Hsome as [? Hcontra]; [|done..].
      congruence.
Qed.

Section filler.
Context `{RandomSource G}.
Variable board_size : Z.

Lemma fill_cell_spec (board : list (list (option ascii))) (g : G) (row col : Z) :
  board_wf board_size board → in_grid board_size (row, col) →
  ∃ board' g',
    fill_cell (ord "A") (ord "Z") row col (board, g) = Ok (board', g') ∧
    filled_from board_size board board' ∧
    ∃ ch, board_cell board' (row, col) = Some (Some ch).
Proof.
  intros Hwf Hin. unfold fill_cell.
  destruct (board_getitem_in_grid _ _ _ _ Hwf Hin) as (cell & Hcell & ->). simpl.
  destruct cell as [ch|].
  { exists board, g. split_and!; [done|by apply filled_from_refl|by exists ch]. }
  pose proof (random_randint_range g (ord "A") (ord "Z") ltac:(by vm_compute)) as Hn.
  destruct (random_randint g (ord "A") (ord "Z")) as [n g']. simpl in Hn.
  destruct (board_setitem_in_grid board_size board row col (Some (chr n)) Hwf Hin)
    as (board' & -> & Hwf' & Hset & Hframe).
  simpl. exists board', g'. split_and!; [done| |by eexists].
  split_and!; [done|done|..].
  - intros p ch Hr Hc Hp. rewrite Hframe; [done..|]. intros ->. congruence.
  - intros p ch Hr Hc Hp. destruct (decide (p = (row, col))) as [->|Hne].
    + right. split; [done|]. rewrite Hset in Hp. injection Hp as <-.
      by apply chr_upper_letter.
    + left. by rewrite <- Hframe.
Qed.

(** The inner loop, over any list of columns of the grid. *)
Lemma fill_row_spec (cols : list Z) (row : Z) :
  0 ≤ row < board_size → Forall (λ col, 0 ≤ col < board_size) cols →
  ∀ (board : list (list (option ascii))) (g : G),
  board_wf board_size board →
  ∃ board' g',
    for_each cols (fill_cell (ord "A") (ord "Z") row) (board, g) = Ok (board', g') ∧
    filled_from board_size board board' ∧
    ∀ col, col ∈ cols → ∃ ch, board_cell board' (row, col) = Some (Some ch).
Proof.
  intros Hrow. induction 1 as [|col cols Hcol Hcols IH]; intros board g Hwf; cbn [for_each].
  { exists board, g. split_and!; [done|by apply filled_from_refl|].
    intros col Hcol. by apply elem_of_nil in Hcol. }
  destruct (fill_cell_spec board g row col Hwf) as (board1 & g1 & -> & Hfill1 & Hcell1).
  { by split. }
  cbn [mbind result_bind]. destruct (IH board1 g1) as (board' & g' & -> & Hfill' & Hcells').
  { apply Hfill1. }
  exists board', g'. split_and!; [done|by eapply filled_from_trans|].
  intros col' [->|Hin]%elem_of_cons; [|by apply Hcells'].
  destruct Hcell1 as [ch Hch]. exists ch.
  destruct Hfill' as (_ & _ & Hkept & _). apply Hkept; [simpl; lia..|done].
Qed.

(** The outer loop, over any list of rows of the grid. *)
Lemma fill_rows_spec (rows cols : list Z) :
  Forall (λ row, 0 ≤ row < board_size) rows →
  Forall (λ col, 0 ≤ col < board_size) cols →
  ∀ (board : list (list (option ascii))) (g : G),
  board_wf board_size board →
  ∃ board' g',
    for_each rows (λ row, for_each cols (fill_cell (ord "A") (ord "Z") row)) (board, g)
      = Ok (board', g') ∧
    filled_from board_size board board' ∧
    ∀ row col, row ∈ rows → col ∈ cols →
      ∃ ch, board_cell board' (row, col) = Some (Some ch).
Proof.
  intros Hrows Hcols.
  induction Hrows as [|row rows Hrow Hrows IH]; intros board g Hwf; cbn [for_each].
  { exists board, g. split_and!; [done|by apply filled_from_refl|].
    intros row col Hrow. by apply elem_of_nil in Hrow. }
  destruct (fill_row_spec cols row Hrow Hcols board g Hwf)
    as (board1 & g1 & -> & Hfill1 & Hcells1).
  cbn [mbind result_bind]. destruct (IH board1 g1) as (board' & g' & -> & Hfill' & Hcells').
  { apply Hfill1. }
  exists board', g'. split_and!; [done|by eapply filled_from_trans|].
  intros row' col [->|Hin]%elem_of_cons Hcol; [|by apply Hcells'].
  destruct (Hcells1 col Hcol) as [ch Hch]. exists ch.
  destruct Hfill' as (_ & _ & Hkept & _).
  rewrite Forall_forall in Hcols. apply Hcols in Hcol.
  apply Hkept; [simpl; lia..|done].
Qed.

Lemma fill_empty_cells_spec (board : list (list (option ascii))) (g : G) :
  board_wf board_size board →
  ∃ board' g',
    fill_empty_cells board board_size g = Ok (board', g') ∧
    filled_from board_size board board' ∧
    ∀ p, in_grid board_size p → ∃ ch, board_cell board' p = Some (Some ch).
Proof.
  intros Hwf. unfold fill_empty_cells.
  assert (Forall (λ k, 0 ≤ k < board_size) (range 0 board_size)) as Hrange.
  { apply Forall_forall. intros k Hk. by apply elem_of_range in Hk. }
  destruct (fill_rows_spec _ _ Hrange Hrange board g Hwf)
    as (board' & g' & Hrun & Hfill & Hcells).
  exists board', g'. split_and!; [done..|].
  intros [r c] [Hr Hc]. apply Hcells; by apply elem_of_range.
Qed.

End filler.

Lemma grid_letters_upper_cell (board : list (list (option ascii))) :
  grid_letters_upper board ↔
  ∀ (p : Z * Z) ch, 0 ≤ p.1 → 0 ≤ p.2 →
    board_cell board p = Some (Some ch) → is_upper_letter ch.
Proof.
  unfold grid_letters_upper. split.
  - intros Hupper p ch _ _ Hp. unfold board_cell in Hp.
    destruct (board !! Z.to_nat p.1) as [board_row|] eqn:Hrow; [|done].
    simpl in Hp. rewrite Forall_lookup in Hupper.
    specialize (Hupper _ _ Hrow). rewrite Forall_lookup in Hupper.
    by eapply Hupper.
  - intros Hcells. apply Forall_lookup. intros r board_row Hrow.
    apply Forall_lookup. intros c cell Hcell ch ->.
    apply (Hcells (Z.of_nat r, Z.of_nat c)); simpl; [lia..|].
    unfold board_cell. simpl. rewrite !Nat2Z.id, Hrow. by simpl.
Qed.

Lemma fill_empty_cells_upper_spec `{RandomSource G} (board_size : Z)
    (board : list (list (option ascii))) (g : G) :
  board_wf board_size board →
  grid_letters_upper board →
  ∃ board' g',
    fill_empty_cells board board_size g = Ok (board', g') ∧
    board_wf board_size board' ∧
    (∀ p, in_grid board_size p →
       ∃ ch, board_cell board' p = Some (Some ch) ∧ is_upper_letter ch) ∧
    Forall (Forall (λ cell, ∃ ch, cell = Some ch ∧ is_upper_letter ch)) board'.
Proof.
  intros Hwf Hupper.
  destruct (fill_empty_cells_spec board_size board g Hwf)
    as (board' & g' & Hrun & (_ & Hwf' & Hkept & Hnew) & Hcells).
  assert (∀ p, in_grid board_size p →
            ∃ ch, board_cell board' p = Some (Some ch) ∧ is_upper_letter ch) as Hall.
  { intros p Hin. destruct (Hcells p Hin) as [ch Hch]. exists ch. split; [done|].
    destruct Hin as [Hr Hc].
    destruct (Hnew p ch ltac:(lia) ltac:(lia) Hch) as [Hold|[_ Hup]]; [|done].
    eapply (proj1 (grid_letters_upper_cell board) Hupper); [| |done]; lia. }
  exists board', g'. split_and!; [done..|].
  apply Forall_lookup. intros r board_row Hrow.
  apply Forall_lookup. intros c cell Hcell.
  pose proof (board_wf_row _ _ _ _ Hwf' Hrow) as Hlen.
  apply lookup_lt_Some in Hrow as Hr, Hcell as Hc. destruct Hwf' as [Hl _].
  destruct (Hall (Z.of_nat r, Z.of_nat c)) as (ch & Hch & Hup).
  { unfold in_grid. simpl. lia. }
  unfold board_cell in Hch. simpl in Hch. rewrite !Nat2Z.id, Hrow in Hch.
  simpl in Hch. rewrite Hcell in Hch. injection Hch as ->. by exists ch.
Qed.

(** C6: on an N×N grid whose cells are empty or hold an uppercase letter,
    the filler returns an N×N grid in which every one of the N·N cells
    holds a letter of A..Z; no empty cell remains. *)
Theorem fill_empty_cells_all_upper `{RandomSource G} (board_size : Z)
    (board : list (list (option ascii))) (g : G) :
  board_wf board_size board →
  grid_letters_upper board →
  ∃ board' g',
    fill_empty_cells board board_size g = Ok (board', g') ∧
    board_wf board_size board' ∧
    (∀ p, in_grid board_size p →
       ∃ ch, board_cell board' p = Some (Some ch) ∧ is_upper_letter ch) ∧
    Forall (Forall (λ cell, ∃ ch, cell = Some ch ∧ is_upper_letter ch)) board'.
Proof. apply fill_empty_cells_upper_spec. Qed.

(** C10: on an N×N grid the filler returns and changes no letter: a cell
    that holds a letter before the pass holds the same letter after it, so
    every word that can be read on the grid before the pass can be read at
    the same place after it. *)
Theorem fill_empty_cells_keeps_letters `{RandomSource G} (board_size : Z)
    (board : list (list (option ascii))) (g : G) :
  board_wf board_size board →
  ∃ board' g',
    fill_empty_cells board board_size g = Ok (board', g') ∧
    letters_kept board board' ∧
    ∀ word position direction,
      reads board board_size word position direction →
      reads board' board_size word position direction.
Proof.
  intros Hwf.
  destruct (fill_empty_cells_spec board_size board g Hwf)
    as (board' & g' & Hrun & (_ & _ & Hkept & _) & _).
  exists board', g'. split_and!; [done..|].
  intros word position direction. by apply reads_kept.
Qed.

Ltac grid_letters_upper_by_computation :=
  repeat first [apply Forall_nil_2 | apply Forall_cons_2];
  intros ch [= <-]; vm_compute; split; discriminate.

Lemma fill_empty_cells_all_upper_witness :
  board_wf 4 example_board ∧
  grid_letters_upper example_board ∧
  ∃ board' g',
    fill_empty_cells example_board 4 example_tape = Ok (board', g') ∧
    board_wf 4 board' ∧
    (∀ p, in_grid 4 p →
       ∃ ch, board_cell board' p = Some (Some ch) ∧ is_upper_letter ch) ∧
    Forall (Forall (λ cell, ∃ ch, cell = Some ch ∧ is_upper_letter ch)) board'.
Proof.
  split_and!; [board_wf_by_computation|grid_letters_upper_by_computation|].
  apply (fill_empty_cells_all_upper 4 example_board example_tape);
    [board_wf_by_computation|grid_letters_upper_by_computation].
Defined.

Lemma fill_empty_cells_keeps_letters_witness :
  board_wf 4 example_board ∧
  ∃ board' g',
    fill_empty_cells example_board 4 example_tape = Ok (board', g') ∧
    letters_kept example_board board' ∧
    ∀ word position direction,
      reads example_board 4 word position direction →
      reads board' 4 word position direction.
Proof.
  split; [board_wf_by_computation|].
  apply (fill_empty_cells_keeps_letters 4 example_board example_tape).
  board_wf_by_computation.
Defined.

Example example_fill :
  fill_empty_cells example_board 4 example_tape
  = Ok ([[Some "R"; Some "A"; Some "T"; Some "D"];
         [Some "B"; Some "A"; Some "C"; Some "F"];
         [Some "C"; Some "H"; Some "C"; Some "B"];
         [Some "B"; Some "C"; Some "D"; Some "E"]]%char, [5; 6; 7; 8; 9]%nat).
Proof. vm_compute. reflexivity. Qed.

(** ** Vocabulary supplier *)

Lemma NoDup_fmap_inj_on {A B} (f : A → B) (l : list A) (x y : A) :
  NoDup (f <$> l) → x ∈ l → y ∈ l → f x = f y → x = y.
Proof.
  intros Hnodup Hx Hy Hxy.
  apply list_elem_of_lookup in Hx as [i Hi]. apply list_elem_of_lookup in Hy as [j Hj].
  assert (i = j) as ->; [|congruence].
  eapply NoDup_lookup; [done|..]; rewrite list_lookup_fmap.
  - by rewrite Hi.
  - rewrite Hj. simpl. by rewrite Hxy.
Qed.

Lemma vocabulary_has_both_spellings : "CROWN" ∈ vocabulary ∧ "Crown" ∈ vocabulary.
Proof. split; apply (bool_decide_unpack _); vm_compute; exact I. Qed.

Lemma vocabulary_counts :
  length (remove_dups vocabulary) = 957%nat ∧
  length (remove_dups (upper <$> vocabulary)) = 951%nat.
Proof. split; vm_compute; reflexivity. Qed.

Lemma size_list_to_set_remove_dups (l : list string) :
  size (list_to_set l : gset string) = length (remove_dups l).
Proof.
  rewrite <- (size_list_to_set (C:=gset string) (remove_dups l))
    by apply NoDup_remove_dups.
  f_equal. apply set_eq. intros x.
  by rewrite !elem_of_list_to_set, elem_of_remove_dups.
Qed.

(** Entries and distinct words of a deduplicated, then upper-cased and
    reordered, word list. *)
Lemma deduplicated_then_upper_counts (l shuffled : list string) :
  shuffled ≡ₚ upper <$> elements (list_to_set l : gset string) →
  length shuffled = length (remove_dups l) ∧
  size (list_to_set shuffled : gset string) = length (remove_dups (upper <$> l)).
Proof.
  intros Hperm. split.
  - rewrite Hperm, length_fmap, <- size_list_to_set_remove_dups. done.
  - rewrite <- size_list_to_set_remove_dups. f_equal.
    apply set_eq. intros x. rewrite Hperm, !elem_of_list_to_set, !list_elem_of_fmap.
    by setoid_rewrite elem_of_elements; setoid_rewrite elem_of_list_to_set.
Qed.

(** C2 (evaluation of the code): whatever the generator draws, the sequence
    returned by [get_vocabulary] holds a word more than once.  The literal
    has both "CROWN" and "Crown"; the set keeps both, since it is built
    before the words are put in upper case, and [upper] then maps both to
    "CROWN".  The sequence has 957 entries and 951 distinct words. *)
Theorem get_vocabulary_has_duplicates `{RandomSource G} (g : G) :
  "CROWN" ∈ vocabulary ∧ "Crown" ∈ vocabulary ∧
  upper "Crown" = upper "CROWN" ∧
  ¬ NoDup (get_vocabulary g).1 ∧
  length (get_vocabulary g).1 = 957%nat ∧
  size (list_to_set (get_vocabulary g).1 : gset string) = 951%nat.
Proof.
  destruct vocabulary_has_both_spellings as [Hupper Hmixed].
  destruct vocabulary_counts as [Hentries Hdistinct].
  unfold get_vocabulary. cbv zeta.
  pose proof (random_shuffle_perm g
                (upper <$> elements (list_to_set vocabulary : gset string))) as Hperm.
  destruct (deduplicated_then_upper_counts vocabulary _ Hperm) as [Hlen Hsize].
  split_and!; [exact Hupper|exact Hmixed|by vm_compute| | |].
  - rewrite Hperm. intros Hnodup.
    assert ("Crown" = "CROWN") as Heq; [|done].
    eapply (NoDup_fmap_inj_on upper); [done|..|by vm_compute];
      by apply elem_of_elements, elem_of_list_to_set.
  - rewrite Hlen. exact Hentries.
  - rewrite Hsize. exact Hdistinct.
Qed.

(** ** Degenerate inputs *)

Section degenerate.
Context `{RandomSource G}.

Lemma random_shuffle_nil {A} (g : G) : (random_shuffle g (@nil A)).1 = [].
Proof. apply Permutation_nil_r. apply random_shuffle_perm. Qed.

(** With an empty pool every word is dropped at once. *)
Lemma for_words_empty_pool (fuel : nat) (board_size : Z) (vocabulary : list string)
    (directions : list (Z * Z)) (st : Engine G) :
  st_positions st = [] → st_pop_positions st = [] →
  ∃ st', for_words fuel board_size vocabulary directions st = Some (Ok st') ∧
    st_board st' = st_board st ∧ st_words st' = st_words st ∧
    st_max_length st' = st_max_length st ∧ st_placements st' = st_placements st.
Proof.
  revert st. induction vocabulary as [|word vocabulary IH]; intros st Hpos Hpop; simpl.
  { by exists st. }
  destruct (next_word_fields st) as (Hb & Hw & Hm & Hp & Hpop').
  assert (st_positions (next_word st) = []) as Hpos'.
  { unfold next_word. rewrite Hpos, Hpop. simpl.
    pose proof (random_shuffle_nil (A:=Z * Z) (st_rng st)) as Hnil.
    destruct (random_shuffle (st_rng st) []) as [positions g]. by simpl in *. }
  assert (attempts fuel board_size word directions (next_word st) false
          = Some (Ok (next_word st))) as ->.
  { destruct fuel; simpl; by rewrite Hpos'. }
  destruct (IH (next_word st) Hpos' Hpop') as (st' & -> & Hb' & Hw' & Hm' & Hp').
  exists st'. split_and!; [done|congruence..].
Qed.

End degenerate.

(** C9 (as amended): for an empty vocabulary or a board size N <= 0 nothing
    is raised, whatever the number of loop iterations allowed:
    [populate_board] returns the empty word list and maximum length 0 and
    leaves the board as it was, and the generation steps of [main] go on
    to the filler and return a board with no placed word. *)
Theorem degenerate_inputs_proceed_silently `{RandomSource G} (fuel : nat)
    (board : list (list (option ascii))) (board_size : Z)
    (vocabulary : list string) (directions : list (Z * Z)) (g : G) :
  vocabulary = [] ∨ board_size ≤ 0 →
  populate_board fuel board board_size vocabulary directions g = Some (Ok ([], 0)) ∧
  (∃ st, populate_board_run fuel board board_size vocabulary directions g = Some (Ok st)
         ∧ st_board st = board ∧ st_placements st = []) ∧
  ∃ board' g', generate fuel board_size vocabulary g = Some (Ok (board', [], 0, g')).
Proof.
  intros Hdeg.
  assert (∀ (board0 : list (list (option ascii))) (dirs : list (Z * Z)),
            ∃ st, populate_board_run fuel board0 board_size vocabulary dirs g
                  = Some (Ok st)
                  ∧ st_board st = board0 ∧ st_words st = [] ∧ st_max_length st = 0
                  ∧ st_placements st = []) as Hrun.
  { intros board0 dirs. unfold populate_board_run. destruct Hdeg as [->|Hsize].
    - simpl. by eexists.
    - apply for_words_empty_pool; [|done]. simpl.
      unfold initial_positions, range. by rewrite seqZ_nil by lia. }
  split_and!.
  - destruct (Hrun board directions) as (st & Hst & _ & Hw & Hm & _).
    unfold populate_board. by rewrite Hst, Hw, Hm.
  - destruct (Hrun board directions) as (st & Hst & Hb & _ & _ & Hp). by exists st.
  - destruct (Hrun (init_board board_size) create_all_directions)
      as (st & Hst & Hb & Hw & Hm & _).
    unfold generate. rewrite Hst, Hb, Hw, Hm.
    destruct (fill_empty_cells_spec board_size (init_board board_size) (st_rng st)
                (init_board_wf board_size)) as (board' & g' & -> & _).
    simpl. by exists board', g'.
Qed.

Lemma degenerate_inputs_proceed_silently_witness :
  (example_vocabulary = [] ∨ 0 ≤ 0) ∧
  populate_board 9 (init_board 0) 0 example_vocabulary create_all_directions
    example_tape = Some (Ok ([], 0)).
Proof.
  split; [right; lia|].
  apply (degenerate_inputs_proceed_silently 9 (init_board 0) 0 example_vocabulary
           create_all_directions example_tape).
  right. lia.
Defined.

(** C9 (as stated) fails: with board size 0, and with an empty vocabulary,
    the generation steps return normally instead of raising. *)
Lemma degenerate_inputs_not_rejected :
  generate 9 0 example_vocabulary example_tape
    = Some (Ok ([], [], 0, example_tape)) ∧
  ¬ (∃ e, generate 9 0 example_vocabulary example_tape = Some (Err e)) ∧
  populate_board 9 (init_board 4) 4 [] create_all_directions example_tape
    = Some (Ok ([], 0)) ∧
  ¬ (∃ e, generate 9 4 [] example_tape = Some (Err e)).
Proof.
  split_and!.
  - by vm_compute.
  - intros [e He]. vm_compute in He. discriminate.
  - by vm_compute.
  - intros [e He]. vm_compute in He. discriminate.
Qed.

(** ** The grid that [main] hands to the output layer *)

Lemma upper_wordb_true (word : string) : upper_wordb word = true → upper_word word.
Proof.
  induction word as [|ch0 word IH]; simpl.
  - intros _ i ch Hget. by destruct i.
  - intros [Hch0 Hword]%andb_true_iff. apply bool_decide_eq_true_1 in Hch0.
    intros [|i] ch Hget; simpl in Hget.
    + by injection Hget as <-.
    + by eapply IH.
Qed.

(** Every literal of the word list is made of ASCII letters, so every word
    is made of the letters A..Z once it is in upper case. *)
Lemma vocabulary_upper : Forall (λ word, upper_word (upper word)) vocabulary.
Proof.
  assert (forallb (λ word, upper_wordb (upper word)) vocabulary = true) as Hall
    by (vm_compute; reflexivity).
  apply Forall_forall. intros word Hword. apply upper_wordb_true.
  rewrite forallb_forall in Hall. by apply Hall, list_elem_of_In.
Qed.

Lemma get_vocabulary_upper `{RandomSource G} (g : G) :
  Forall upper_word (get_vocabulary g).1.
Proof.
  unfold get_vocabulary. rewrite random_shuffle_perm.
  apply Forall_fmap, Forall_forall. intros word Hword. simpl.
  apply elem_of_elements, elem_of_list_to_set in Hword.
  pose proof vocabulary_upper as Hall. rewrite Forall_forall in Hall. by apply Hall.
Qed.

Section upper_grid.
Context `{RandomSource G}.
Variables (board_size : Z) (directions : list (Z * Z)).
Hypothesis directions_nonzero : (0, 0) ∉ directions.

Lemma attempt_upper_board (word : string) (st st' : Engine G) (placed : bool) :
  upper_word word → upper_board board_size st →
  attempt board_size word directions st = Ok (st', placed) → upper_board board_size st'.
Proof.
  intros Hword [Hwf Hupper] Hrun.
  apply attempt_Ok in Hrun as (position & direction & _ & _ & Hdir & Hcan & Hrest).
  destruct placed.
  - destruct Hrest as (Hplace & _).
    destruct (can_place_word_answer board_size (st_board st) word
                position direction Hwf) as (b & Hcan' & Htrue).
    rewrite Hcan in Hcan'. injection Hcan' as <-.
    destruct (place_word_spec board_size (st_board st) word position direction)
      as (board' & Hplace' & Hwf' & _ & _ & Hnew);
      [by intros ->|done|by apply Htrue|].
    rewrite Hplace in Hplace'. injection Hplace' as <-.
    split; [done|]. apply grid_letters_upper_cell. intros p ch Hr Hc Hp.
    destruct (Hnew p ch Hr Hc Hp) as [Hold|[i Hi]]; [|by eapply Hword].
    by eapply (proj1 (grid_letters_upper_cell (st_board st)) Hupper).
  - destruct Hrest as (Hboard & _). unfold upper_board. by rewrite Hboard.
Qed.

Lemma for_words_upper_board (fuel : nat) (vocabulary : list string) (st st' : Engine G) :
  Forall upper_word vocabulary → upper_board board_size st →
  for_words fuel board_size vocabulary directions st = Some (Ok st') →
  upper_board board_size st'.
Proof.
  intros Hwords. revert st.
  induction Hwords as [|word vocabulary Hword Hwords IH]; intros st Hst; simpl.
  { by intros [= <-]. }
  destruct (attempts fuel board_size word directions (next_word st) false)
    as [[st1|e]|] eqn:Hrun; [|done..].
  apply IH. eapply (attempts_preserves board_size directions (upper_board board_size)); [|..|done].
  - intros st2 st3 placed Hst2 Hstep. by eapply attempt_upper_board.
  - destruct (next_word_fields st) as (Hb & _). unfold upper_board. by rewrite Hb.
Qed.

End upper_grid.

Lemma init_board_upper board_size : grid_letters_upper (init_board board_size).
Proof.
  unfold grid_letters_upper, init_board.
  apply Forall_fmap, Forall_forall. intros r _. simpl.
  apply Forall_fmap, Forall_forall. by intros c _ ch.
Qed.

(** The generation steps of [main] never raise, and the board they return
    is a 20×20 grid of letters A..Z: the boards that reach the filler in
    the program are grids in the sense of the data model. *)
Theorem main_grid_all_upper `{RandomSource G} (fuel : nat) (g : G) :
  (361 ≤ fuel)%nat →
  ∃ board words max_length g',
    main fuel g = Some (Ok (board, words, max_length, g')) ∧
    board_wf 20 board ∧
    Forall (Forall (λ cell, ∃ ch, cell = Some ch ∧ is_upper_letter ch)) board.
Proof.
  intros Hfuel. unfold main.
  pose proof (get_vocabulary_upper g) as Hwords.
  destruct (get_vocabulary g) as [vocabulary g1]. simpl in Hwords.
  unfold generate.
  destruct (populate_board_run_outcome fuel (init_board 20) 20 vocabulary
              create_all_directions g1) as (outcome & Hrun & Hret & Hok);
    [apply init_board_wf|apply create_all_directions_nonzero|exact Hfuel|].
  destruct Hret as [st ->]; [by vm_compute|].
  rewrite Hrun.
  assert (upper_board 20 st) as [Hwf Hupper].
  { apply (for_words_upper_board 20 create_all_directions
             create_all_directions_nonzero fuel vocabulary
             (populate_start (init_board 20) 20 g1) st Hwords); [|exact Hrun].
    split; [apply init_board_wf|apply init_board_upper]. }
  destruct (fill_empty_cells_upper_spec 20 (st_board st) (st_rng st) Hwf Hupper)
    as (board' & g' & -> & Hwf' & _ & Hall).
  cbn [mbind result_bind]. by exists board', (st_words st), (st_max_length st), g'.
Qed.

(** * Further properties *)

(** ** The checker on earlier and later boards *)

Lemma string_get_is_Some (word : string) (i : nat) :
  (i < String.length word)%nat → is_Some (String.get i word).
Proof.
  revert i. induction word as [|ch word IH]; intros i Hi; simpl in *; [lia|].
  destruct i as [|i]; [by eexists|]. apply IH. lia.
Qed.

Lemma string_get_length (word : string) (i : nat) (ch : ascii) :
  String.get i word = Some ch → (i < String.length word)%nat.
Proof.
  revert i. induction word as [|ch0 word IH]; intros i Hget; simpl in *.
  - by destruct i.
  - destruct i as [|i]; [lia|]. apply IH in Hget. lia.
Qed.

Lemma fits_earlier_board board_size (board board' : list (list (option ascii)))
    (word : string) (position direction : Z * Z) :
  board_wf board_size board → letters_kept board board' →
  fits board' board_size word position direction →
  fits board board_size word position direction.
Proof.
  intros Hwf Hkept Hfits i ch Hget. destruct (Hfits i ch Hget) as [Hin Hcell].
  split; [done|]. destruct (cell_of position direction i) as [r c] eqn:Hrc.
  destruct (board_getitem_in_grid _ _ _ _ Hwf Hin) as ([ch'|] & Hcell0 & _); [|auto].
  right. rewrite Hcell0. destruct Hin as [Hr Hc]. simpl in Hr, Hc.
  apply Hkept in Hcell0; [|simpl; lia..]. rewrite Hcell0 in Hcell.
  by destruct Hcell as [[=]|[= ->]].
Qed.

(** X1: letters only ever make the checker stricter.  Between two N×N
    boards of which the later keeps every letter of the earlier, a
    placement accepted on the later board is accepted on the earlier one,
    and a placement rejected on the earlier board is rejected on the later
    one. *)
Theorem can_place_word_stricter_on_later_board board_size
    (board board' : list (list (option ascii))) (word : string)
    (position direction : Z * Z) :
  board_wf board_size board → board_wf board_size board' →
  letters_kept board board' →
  (can_place_word board' board_size word position direction = Ok true →
   can_place_word board board_size word position direction = Ok true) ∧
  (can_place_word board board_size word position direction = Ok false →
   can_place_word board' board_size word position direction = Ok false).
Proof.
  intros Hwf Hwf' Hkept.
  destruct (can_place_word_answer board_size board word position direction Hwf)
    as (b & Hb & Htrue).
  destruct (can_place_word_answer board_size board' word position direction Hwf')
    as (b' & Hb' & Htrue').
  rewrite Hb, Hb'.
  assert (b' = true → b = true) as Himp.
  { intros Hfits%Htrue'. apply Htrue. by eapply fits_earlier_board. }
  split.
  - intros [= ->]. by rewrite Himp.
  - intros [= ->]. destruct b'; [|done]. by discriminate Himp.
Qed.

Lemma can_place_word_stricter_on_later_board_witness :
  board_wf 4 (init_board 4) ∧ board_wf 4 example_board ∧
  letters_kept (init_board 4) example_board ∧
  (can_place_word example_board 4 "CAT" (2, 0) (-1, 1) = Ok true →
   can_place_word (init_board 4) 4 "CAT" (2, 0) (-1, 1) = Ok true) ∧
  (can_place_word (init_board 4) 4 "CAT" (2, 0) (-1, 1) = Ok false →
   can_place_word example_board 4 "CAT" (2, 0) (-1, 1) = Ok false).
Proof.
  assert (letters_kept (init_board 4) example_board) as Hkept.
  { intros [r c] ch Hr Hc Hcell. simpl in Hr, Hc. exfalso.
    assert (in_grid 4 (r, c)) as [Hr4 Hc4].
    { apply (board_cell_is_Some 4 (init_board 4)); [apply init_board_wf|done..|].
      by eexists. }
    simpl in Hr4, Hc4.
    assert (r = 0 ∨ r = 1 ∨ r = 2 ∨ r = 3) as Hrs by lia.
    assert (c = 0 ∨ c = 1 ∨ c = 2 ∨ c = 3) as Hcs by lia.
    destruct Hrs as [->|[->|[->| ->]]], Hcs as [->|[->|[->| ->]]];
      vm_compute in Hcell; discriminate. }
  split_and!; [board_wf_by_computation|board_wf_by_computation|exact Hkept|..];
    apply (can_place_word_stricter_on_later_board 4 (init_board 4) example_board
             "CAT" (2, 0) (-1, 1));
    [board_wf_by_computation|board_wf_by_computation|exact Hkept
    |board_wf_by_computation|board_wf_by_computation|exact Hkept].
Defined.

(** ** Words that cannot fit *)

Lemma fits_length board_size (board : list (list (option ascii))) (word : string)
    (position direction : Z * Z) :
  direction ≠ (0, 0) → 0 ≤ board_size →
  fits board board_size word position direction →
  Z.of_nat (String.length word) ≤ board_size.
Proof.
  intros Hdir Hsize Hfits.
  destruct (String.length word) as [|n] eqn:Hlen; [lia|].
  destruct (string_get_is_Some word 0) as [ch0 Hget0]; [lia|].
  destruct (string_get_is_Some word n) as [chn Hgetn]; [lia|].
  destruct (Hfits _ _ Hget0) as [[Hr0 Hc0] _].
  destruct (Hfits _ _ Hgetn) as [[Hrn Hcn] _].
  destruct position as [row col], direction as [d_row d_col].
  unfold cell_of in *. simpl in *.
  destruct (decide (d_row = 0)) as [->|Hd_row].
  - assert (d_col ≠ 0) as Hd_col by (by intros ->). nia.
  - nia.
Qed.

(** X2: on an N×N board, N >= 0, the checker rejects every word longer
    than N, whatever the start and whatever the non-zero direction. *)
Theorem can_place_word_longer_than_board board_size
    (board : list (list (option ascii))) (word : string)
    (position direction : Z * Z) :
  board_wf board_size board → direction ≠ (0, 0) → 0 ≤ board_size →
  board_size < Z.of_nat (String.length word) →
  can_place_word board board_size word position direction = Ok false.
Proof.
  intros Hwf Hdir Hsize Hlong.
  destruct (can_place_word_answer board_size board word position direction Hwf)
    as ([|] & Hb & Htrue); [|done].
  pose proof (proj1 Htrue eq_refl) as Hfits.
  apply fits_length in Hfits; [lia|done..].
Qed.

Lemma can_place_word_longer_than_board_witness :
  board_wf 4 example_board ∧ (1, 0) ≠ (0, 0) ∧ 0 ≤ 4 ∧
  4 < Z.of_nat (String.length "HORSE") ∧
  can_place_word example_board 4 "HORSE" (0, 3) (1, 0) = Ok false.
Proof.
  split_and!; [board_wf_by_computation|discriminate|lia|by vm_compute|].
  apply (can_place_word_longer_than_board 4 example_board "HORSE" (0, 3) (1, 0));
    [board_wf_by_computation|discriminate|lia|by vm_compute].
Defined.

(** ** The checker on a fresh board *)

Lemma mul_between (i n d : Z) :
  0 ≤ i ≤ n → 0 ≤ i * d ≤ n * d ∨ n * d ≤ i * d ≤ 0.
Proof. intros Hi. destruct (Z.le_gt_cases 0 d); [left|right]; nia. Qed.

Lemma init_board_cell board_size (p : Z * Z) :
  in_grid board_size p → board_cell (init_board board_size) p = Some None.
Proof.
  intros [Hr Hc]. unfold board_cell, init_board, range.
  rewrite list_lookup_fmap, lookup_seqZ_lt by lia. simpl.
  rewrite list_lookup_fmap, lookup_seqZ_lt by lia. done.
Qed.

(** X3: [init_board] returns an N×N grid (no row at all when N <= 0) all
    of whose cells are empty, and on that grid the checker accepts a word
    exactly when the word is empty or its first and its last cell lie in
    the grid. *)
Theorem can_place_word_on_init_board board_size (word : string)
    (position direction : Z * Z) :
  board_wf board_size (init_board board_size) ∧
  (∀ p, in_grid board_size p → board_cell (init_board board_size) p = Some None) ∧
  ∃ b : bool,
    can_place_word (init_board board_size) board_size word position direction = Ok b ∧
    (b = true ↔
       word = EmptyString ∨
       (in_grid board_size position ∧
        in_grid board_size
          (cell_of position direction (String.length word - 1)))).
Proof.
  split_and!; [apply init_board_wf|apply init_board_cell|].
  destruct (can_place_word_answer board_size (init_board board_size) word
              position direction (init_board_wf board_size)) as (b & Hb & Htrue).
  exists b. split; [done|]. rewrite Htrue. split.
  - intros Hfits. destruct word as [|ch word]; [by left|right].
    destruct (Hfits 0%nat ch eq_refl) as [Hin0 _].
    destruct (string_get_is_Some (String ch word) (String.length (String ch word) - 1))
      as [chn Hgetn]; [simpl; lia|].
    destruct (Hfits _ _ Hgetn) as [Hinn _]. split; [|done].
    clear -Hin0. destruct position, direction. unfold cell_of, in_grid in *.
    simpl in *. change (Z.of_nat 0) with 0 in Hin0. lia.
  - intros [->|[Hin0 Hinn]] i ch Hget; [by destruct i|].
    apply string_get_length in Hget.
    assert (in_grid board_size (cell_of position direction i)) as Hin.
    { destruct position as [row col], direction as [d_row d_col].
      unfold cell_of, in_grid in *. simpl in *.
      assert (∃ n, String.length word = S n ∧ (i ≤ n)%nat) as (n & Hn & Hi)
        by (exists (String.length word - 1)%nat; lia).
      rewrite Hn in Hinn. replace (S n - 1)%nat with n in Hinn by lia.
      pose proof (mul_between (Z.of_nat i) (Z.of_nat n) d_row ltac:(lia)).
      pose proof (mul_between (Z.of_nat i) (Z.of_nat n) d_col ltac:(lia)).
      change (Z.of_nat 0) with 0 in Hin0. lia. }
    split; [done|]. left. by apply init_board_cell.
Qed.

(** ** Placing a word twice *)

Lemma board_setitem_same board_size (board : list (list (option ascii))) r c x :
  board_wf board_size board → in_grid board_size (r, c) →
  board_cell board (r, c) = Some x →
  board_setitem board r c x = Ok board.
Proof.
  intros Hwf [Hr Hc] Hcell. simpl in Hr, Hc. unfold board_setitem.
  destruct (getitem_in_range board r) as (board_row & Hrow & ->).
  { destruct Hwf as [-> _]. lia. }
  pose proof (board_wf_row _ _ _ _ Hwf Hrow) as Hlen. simpl.
  rewrite setitem_in_range by lia. simpl.
  rewrite setitem_in_range by (destruct Hwf as [-> _]; lia).
  unfold board_cell in Hcell. simpl in Hcell. rewrite Hrow in Hcell. simpl in Hcell.
  by rewrite (list_insert_id board_row), (list_insert_id board).
Qed.

Lemma place_word_from_reads board_size (board : list (list (option ascii)))
    (position direction : Z * Z) (word : string) (k : nat) :
  board_wf board_size board →
  (∀ i ch, String.get i word = Some ch →
     in_grid board_size (cell_of position direction (k + i)) ∧
     board_cell board (cell_of position direction (k + i)) = Some (Some ch)) →
  place_word_from board (Z.of_nat k) word position direction = Ok board.
Proof.
  intros Hwf. destruct position as [row col], direction as [d_row d_col].
  revert k. induction word as [|char word IH]; intros k Hreads; [done|].
  destruct (Hreads 0%nat char eq_refl) as [Hin Hcell].
  assert (cell_of (row, col) (d_row, d_col) (k + 0)
          = (row + Z.of_nat k * d_row, col + Z.of_nat k * d_col)) as Hcell_eq
    by (unfold cell_of; simpl; by rewrite Nat.add_0_r).
  rewrite Hcell_eq in Hin, Hcell.
  cbn [place_word_from]. rewrite (board_setitem_same board_size) by done.
  cbn [mbind result_bind]. replace (Z.of_nat k + 1) with (Z.of_nat (S k)) by lia.
  apply IH. intros i ch Hget. replace (S k + i)%nat with (k + S i)%nat by lia.
  by apply Hreads.
Qed.

(** X4: placing is idempotent.  After [place_word] has written a word
    where it fits (N×N board, non-zero direction), the checker accepts the
    same word at the same place again, and placing it again returns the
    board unchanged. *)
Theorem place_word_twice board_size (board : list (list (option ascii)))
    (word : string) (position direction : Z * Z) :
  board_wf board_size board → direction ≠ (0, 0) →
  can_place_word board board_size word position direction = Ok true →
  ∃ board',
    place_word board word position direction = Ok board' ∧
    can_place_word board' board_size word position direction = Ok true ∧
    place_word board' word position direction = Ok board'.
Proof.
  intros Hwf Hdir Hcan.
  destruct (can_place_word_answer board_size board word position direction Hwf)
    as (b & Hb & Htrue).
  rewrite Hcan in Hb. injection Hb as <-.
  destruct (place_word_spec board_size board word position direction)
    as (board' & Hplace & Hwf' & _ & Hreads & _); [done|done|by apply Htrue|].
  exists board'. split_and!; [done|..].
  - destruct (can_place_word_answer board_size board' word position direction Hwf')
      as (b' & -> & Htrue').
    f_equal. apply Htrue'. intros i ch Hget.
    destruct (Hreads i ch Hget) as [Hin Hcell]. auto.
  - apply (place_word_from_reads board_size board' position direction word 0 Hwf').
    intros i ch Hget. by apply Hreads.
Qed.

Lemma place_word_twice_witness :
  board_wf 4 example_board ∧ (-1, 1) ≠ (0, 0) ∧
  can_place_word example_board 4 "CAT" (2, 0) (-1, 1) = Ok true ∧
  ∃ board',
    place_word example_board "CAT" (2, 0) (-1, 1) = Ok board' ∧
    can_place_word board' 4 "CAT" (2, 0) (-1, 1) = Ok true ∧
    place_word board' "CAT" (2, 0) (-1, 1) = Ok board'.
Proof.
  split_and!; [board_wf_by_computation|discriminate|by vm_compute|].
  apply (place_word_twice 4 example_board "CAT" (2, 0) (-1, 1));
    [board_wf_by_computation|discriminate|by vm_compute].
Defined.

(** ** Placing without the checker *)

Lemma py_index_wrap (len : nat) (i : Z) :
  - Z.of_nat len ≤ i < Z.of_nat len →
  py_index len i = Some (Z.to_nat (wrap_index (Z.of_nat len) i)).
Proof.
  intros Hi. unfold py_index, wrap_index. destruct (decide (0 ≤ i)) as [Hnn|Hneg].
  - by rewrite !bool_decide_eq_true_2 by lia.
  - rewrite (bool_decide_eq_false_2 (0 ≤ i < _)) by lia.
    rewrite (bool_decide_eq_true_2 (- _ ≤ i < 0)) by lia.
    by rewrite (bool_decide_eq_false_2 (0 ≤ i)) by lia.
Qed.

Lemma py_index_out (len : nat) (i : Z) :
  ¬ (- Z.of_nat len ≤ i < Z.of_nat len) → py_index len i = None.
Proof.
  intros Hi. unfold py_index.
  rewrite bool_decide_eq_false_2 by lia. by rewrite bool_decide_eq_false_2 by lia.
Qed.

Lemma wrap_index_range board_size i :
  - board_size ≤ i < board_size → 0 ≤ wrap_index board_size i < board_size.
Proof. intros Hi. unfold wrap_index. case_bool_decide; lia. Qed.

Lemma board_setitem_wrap board_size (board : list (list (option ascii))) r c x :
  board_wf board_size board → in_index_range board_size (r, c) →
  board_setitem board r c x
  = board_setitem board (wrap_index board_size r) (wrap_index board_size c) x.
Proof.
  intros Hwf [Hr Hc]. simpl in Hr, Hc.
  pose proof (wrap_index_range _ _ Hr) as Hr'.
  pose proof (wrap_index_range _ _ Hc) as Hc'.
  assert (Z.of_nat (length board) = board_size) as Hlen
    by (destruct Hwf as [-> _]; lia).
  assert (∀ {A} (l : list A) i, Z.of_nat (length l) = board_size →
            - board_size ≤ i < board_size →
            py_index (length l) i = py_index (length l) (wrap_index board_size i))
    as Hidx.
  { intros A l i Hl Hi. rewrite (py_index_wrap (length l) i) by lia.
    rewrite py_index_in_range; rewrite Hl; [done|]. by apply wrap_index_range. }
  unfold board_setitem, getitem, setitem.
  rewrite <- (Hidx _ board r Hlen Hr).
  destruct (py_index (length board) r) as [k|]; [|done].
  destruct (board !! k) as [board_row|] eqn:Hrow; [|done]. simpl.
  pose proof (board_wf_row _ _ _ _ Hwf Hrow) as Hlen'.
  by rewrite <- (Hidx _ board_row c) by lia.
Qed.

Lemma board_setitem_out board_size (board : list (list (option ascii))) r c x :
  board_wf board_size board → ¬ in_index_range board_size (r, c) →
  board_setitem board r c x = Err IndexError.
Proof.
  intros Hwf Hout. unfold in_index_range in Hout. simpl in Hout.
  assert (Z.of_nat (length board) = Z.max 0 board_size) as Hlen
    by (destruct Hwf as [-> _]; lia).
  unfold board_setitem, getitem.
  destruct (decide (- board_size ≤ r < board_size)) as [Hr|Hr].
  - rewrite py_index_wrap by lia.
    destruct (board !! _) as [board_row|] eqn:Hrow; [|done]. simpl.
    pose proof (board_wf_row _ _ _ _ Hwf Hrow) as Hlen'.
    unfold setitem. by rewrite (py_index_out (length board_row) c) by lia.
  - by rewrite py_index_out by lia.
Qed.

Lemma place_word_from_index_range board_size (position direction : Z * Z)
    (word : string) :
  ∀ (k : nat) (board : list (list (option ascii))),
  board_wf board_size board →
  (∀ i ch, String.get i word = Some ch →
     in_index_range board_size (cell_of position direction (k + i))) →
  ∃ board',
    place_word_from board (Z.of_nat k) word position direction = Ok board' ∧
    board_wf board_size board' ∧
    (∀ (p : Z * Z) ch, 0 ≤ p.1 → 0 ≤ p.2 → board_cell board p = Some (Some ch) →
       ∃ ch', board_cell board' p = Some (Some ch')) ∧
    (∀ i ch, String.get i word = Some ch →
       ∃ ch', board_cell board'
                (wrap_cell board_size (cell_of position direction (k + i)))
              = Some (Some ch')).
Proof.
  destruct position as [row col], direction as [d_row d_col].
  induction word as [|char word IH]; intros k board Hwf Hall.
  { exists board. split_and!; [done|done|by eauto|]. intros i ch Hget. by destruct i. }
  assert (cell_of (row, col) (d_row, d_col) (k + 0)
          = (row + Z.of_nat k * d_row, col + Z.of_nat k * d_col)) as Hcell_eq
    by (unfold cell_of; simpl; by rewrite Nat.add_0_r).
  pose proof (Hall 0%nat char eq_refl) as Hin. rewrite Hcell_eq in Hin.
  cbn [place_word_from]. rewrite (board_setitem_wrap board_size) by done.
  destruct Hin as [Hr Hc]. simpl in Hr, Hc.
  pose proof (wrap_index_range _ _ Hr) as Hr'.
  pose proof (wrap_index_range _ _ Hc) as Hc'.
  destruct (board_setitem_in_grid board_size board _ _ (Some char) Hwf
              (conj Hr' Hc')) as (board1 & -> & Hwf1 & Hset & Hframe).
  cbn [mbind result_bind]. replace (Z.of_nat k + 1) with (Z.of_nat (S k)) by lia.
  destruct (IH (S k) board1 Hwf1) as (board' & -> & Hwf' & Hstay & Hletters).
  { intros i ch Hget. replace (S k + i)%nat with (k + S i)%nat by lia.
    by apply (Hall (S i) ch). }
  exists board'. split_and!; [done..| |].
  - intros p ch Hp1 Hp2 Hp.
    destruct (decide (p = (wrap_index board_size (row + Z.of_nat k * d_row),
                           wrap_index board_size (col + Z.of_nat k * d_col))))
      as [->|Hne].
    + by eapply (Hstay _ char).
    + eapply (Hstay _ ch); [done..|]. by rewrite Hframe.
  - intros [|i] ch Hget; simpl in Hget.
    + rewrite Hcell_eq. unfold wrap_cell. simpl.
      eapply (Hstay _ char); [simpl; lia..|done].
    + replace (k + S i)%nat with (S k + i)%nat by lia. by eapply Hletters.
Qed.

Lemma place_word_from_out board_size (position direction : Z * Z) (word : string) :
  ∀ (k : nat) (board : list (list (option ascii))),
  board_wf board_size board →
  (∃ i ch, String.get i word = Some ch ∧
     ¬ in_index_range board_size (cell_of position direction (k + i))) →
  place_word_from board (Z.of_nat k) word position direction = Err IndexError.
Proof.
  destruct position as [row col], direction as [d_row d_col].
  induction word as [|char word IH]; intros k board Hwf (i & ch & Hget & Hbad).
  { by destruct i. }
  assert (cell_of (row, col) (d_row, d_col) (k + 0)
          = (row + Z.of_nat k * d_row, col + Z.of_nat k * d_col)) as Hcell_eq
    by (unfold cell_of; simpl; by rewrite Nat.add_0_r).
  cbn [place_word_from].
  destruct (decide (in_index_range board_size
                      (row + Z.of_nat k * d_row, col + Z.of_nat k * d_col)))
    as [Hin|Hout]; [|by rewrite (board_setitem_out board_size)].
  rewrite (board_setitem_wrap board_size) by done.
  destruct Hin as [Hr Hc]. simpl in Hr, Hc.
  pose proof (wrap_index_range _ _ Hr) as Hr'.
  pose proof (wrap_index_range _ _ Hc) as Hc'.
  destruct (board_setitem_in_grid board_size board _ _ (Some char) Hwf
              (conj Hr' Hc')) as (board1 & -> & Hwf1 & _).
  cbn [mbind result_bind]. replace (Z.of_nat k + 1) with (Z.of_nat (S k)) by lia.
  destruct i as [|i]; simpl in Hget.
  - exfalso. apply Hbad. rewrite Hcell_eq. by split.
  - apply IH; [done|]. exists i, ch. split; [done|].
    by replace (S k + i)%nat with (k + S i)%nat by lia.
Qed.

(** X5: [place_word] itself checks nothing.  On an N×N board, if every
    cell of the path has both coordinates in [-N, N) the call returns an
    N×N board with a letter in every cell of the path, a negative
    coordinate counting from the far edge (a path that leaves through the
    top or the left edge comes back in at the bottom or the right edge); if
    some cell of the path has a coordinate outside [-N, N) the call raises
    IndexError (the letters written before the failing index stay on the
    caller's board; the model returns the exception only). *)
Theorem place_word_without_check board_size (board : list (list (option ascii)))
    (word : string) (position direction : Z * Z) :
  board_wf board_size board →
  ((∀ i ch, String.get i word = Some ch →
      in_index_range board_size (cell_of position direction i)) →
   ∃ board',
     place_word board word position direction = Ok board' ∧
     board_wf board_size board' ∧
     ∀ i ch, String.get i word = Some ch →
       ∃ ch', board_cell board'
                (wrap_cell board_size (cell_of position direction i))
              = Some (Some ch')) ∧
  ((∃ i ch, String.get i word = Some ch ∧
      ¬ in_index_range board_size (cell_of position direction i)) →
   place_word board word position direction = Err IndexError).
Proof.
  intros Hwf. unfold place_word. split.
  - intros Hall.
    destruct (place_word_from_index_range board_size position direction word 0
                board Hwf Hall) as (board' & Hrun & Hwf' & _ & Hletters).
    by exists board'.
  - intros Hbad.
    by apply (place_word_from_out board_size position direction word 0 board Hwf).
Qed.

Lemma place_word_without_check_witness :
  board_wf 3 (init_board 3) ∧
  place_word (init_board 3) "CAT" (0, 0) (-1, -1)
    = Ok [[Some "C"; None; None]; [None; Some "T"; None];
          [None; None; Some "A"]]%char ∧
  place_word (init_board 3) "CAT" (1, 1) (1, 1) = Err IndexError.
Proof.
  split; [board_wf_by_computation|]. split; [by vm_compute|].
  apply (place_word_without_check 3 (init_board 3) "CAT" (1, 1) (1, 1));
    [board_wf_by_computation|].
  exists 2%nat, "T"%char. split; [done|]. vm_compute. intros [[_ Hr] _]. done.
Defined.

(** ** What one vocabulary word does to the engine *)

Section engine_extra.
Context `{RandomSource G}.
Variables (board_size : Z) (directions : list (Z * Z)).

(** The [while] loop of a word either leaves board, word list, maximum and
    history as they were, or places the word once, on the board the loop
    started with. *)
Lemma attempts_outcome (fuel : nat) (word : string) (st st' : Engine G)
    (placed : bool) :
  attempts fuel board_size word directions st placed = Some (Ok st') →
  (st_board st' = st_board st ∧ st_words st' = st_words st ∧
   st_max_length st' = st_max_length st ∧ st_placements st' = st_placements st) ∨
  (∃ position direction,
     direction ∈ directions ∧
     can_place_word (st_board st) board_size word position direction = Ok true ∧
     place_word (st_board st) word position direction = Ok (st_board st') ∧
     st_words st' = st_words st ++ [word] ∧
     st_max_length st' = Z.max (Z.of_nat (String.length word)) (st_max_length st) ∧
     st_placements st' = st_placements st ++ [(word, position, direction)]).
Proof.
  revert st placed. induction fuel as [|fuel IH]; intros st placed; simpl.
  - destruct (negb placed && _); [done|]. intros [= <-]. by left.
  - destruct (negb placed && _); [|intros [= <-]; by left].
    destruct (attempt board_size word directions st) as [[st1 placed1]|e] eqn:Hrun;
      [|done].
    apply attempt_Ok in Hrun as (position & direction & _ & _ & Hdir & Hcan & Hrest).
    destruct placed1.
    + destruct fuel; simpl; intros [= <-]; right; exists position, direction;
        by destruct Hrest as (? & ? & ? & ?).
    + destruct Hrest as (Hb & Hw & Hm & Hp). intros Hloop.
      apply IH in Hloop. rewrite Hb, Hw, Hm, Hp in Hloop. done.
Qed.

(** Induction over the vocabulary. *)
Lemma for_words_induct (P : Engine G → Prop) (fuel : nat) :
  (∀ word (st st' : Engine G), P st →
     attempts fuel board_size word directions (next_word st) false = Some (Ok st') →
     P st') →
  ∀ (vocabulary : list string) (st st' : Engine G),
    P st → for_words fuel board_size vocabulary directions st = Some (Ok st') → P st'.
Proof.
  intros Hstep words.
  induction words as [|word words IH]; intros st st' HP; simpl.
  { by intros [= <-]. }
  destruct (attempts fuel board_size word directions (next_word st) false)
    as [[st1|e]|] eqn:Hrun; [|done..].
  apply IH. by eapply Hstep.
Qed.

Lemma for_words_sublist (fuel : nat) (vocabulary : list string) (st st' : Engine G) :
  for_words fuel board_size vocabulary directions st = Some (Ok st') →
  ∃ placed_words, st_words st' = st_words st ++ placed_words ∧
                  placed_words `sublist_of` vocabulary.
Proof.
  revert st. induction vocabulary as [|word vocabulary IH]; intros st; simpl.
  { intros [= <-]. exists []. by rewrite app_nil_r. }
  destruct (attempts fuel board_size word directions (next_word st) false)
    as [[st1|e]|] eqn:Hrun; [|done..].
  intros (ws & Hws & Hsub)%IH.
  destruct (next_word_fields st) as (_ & Hw & _).
  apply attempts_outcome in Hrun as [(_ & Hw1 & _)|(p & d & _ & _ & _ & Hw1 & _)].
  - exists ws. split; [congruence|]. by apply sublist_cons.
  - exists (word :: ws). split.
    + rewrite Hws, Hw1, Hw. by rewrite <- (assoc_L (++)).
    + by apply sublist_skip.
Qed.

End engine_extra.

Lemma populate_board_outcome_Ok `{RandomSource G} (fuel : nat)
    (board : list (list (option ascii))) (board_size : Z)
    (vocabulary : list string) (directions : list (Z * Z)) (g : G)
    (words : list string) (max_length : Z) :
  populate_board fuel board board_size vocabulary directions g
    = Some (Ok (words, max_length)) →
  ∃ st, populate_board_run fuel board board_size vocabulary directions g = Some (Ok st)
        ∧ st_words st = words ∧ st_max_length st = max_length.
Proof.
  unfold populate_board.
  destruct (populate_board_run _ _ _ _ _ _) as [[st|e]|]; [|done..].
  intros [= <- <-]. by exists st.
Qed.

Lemma populate_board_is_Some `{RandomSource G} (fuel : nat)
    (board : list (list (option ascii))) (board_size : Z)
    (vocabulary : list string) (directions : list (Z * Z)) (g : G) :
  (Z.to_nat (board_size - 1) * Z.to_nat (board_size - 1) ≤ fuel)%nat →
  ∃ outcome, populate_board fuel board board_size vocabulary directions g = Some outcome.
Proof.
  intros Hfuel. rewrite <- length_initial_positions in Hfuel. unfold populate_board.
  destruct (for_words_terminates board_size directions fuel vocabulary
              (populate_start board board_size g) Hfuel) as [outcome Hrun].
  { unfold pool_inv. simpl. by rewrite app_nil_r. }
  unfold populate_board_run. rewrite Hrun. destruct outcome; by eexists.
Qed.

(** ** The returned pair *)

Lemma populate_board_run_max_length `{RandomSource G} (fuel : nat)
    (board : list (list (option ascii))) (board_size : Z)
    (vocabulary : list string) (directions : list (Z * Z)) (g : G) (st : Engine G) :
  populate_board_run fuel board board_size vocabulary directions g = Some (Ok st) →
  is_max_length (st_words st) (st_max_length st).
Proof.
  unfold populate_board_run. intros Hrun.
  apply (for_words_induct board_size directions
           (λ st, is_max_length (st_words st) (st_max_length st)) fuel) in Hrun;
    [done| |].
  - clear. intros word st st' (Hle & Hnil & Hmax) Hloop.
    destruct (next_word_fields st) as (_ & Hw & Hm & _).
    apply attempts_outcome in Hloop
      as [(_ & Hw1 & Hm1 & _)|(p & d & _ & _ & _ & Hw1 & Hm1 & _)];
      unfold is_max_length; rewrite Hw1, Hm1, Hw, Hm; [done|].
    split_and!.
    + apply Forall_app. split.
      * eapply Forall_impl; [done|]. intros w Hw'. simpl in Hw'. lia.
      * apply Forall_singleton. lia.
    + intros [_ [=]]%app_eq_nil.
    + intros _.
      destruct (Z.max_spec (Z.of_nat (String.length word)) (st_max_length st))
        as [[Hlt ->]|[Hge ->]].
      * destruct (st_words st) as [|w ws] eqn:Hws.
        { specialize (Hnil eq_refl). lia. }
        destruct Hmax as (w' & Hin & Hlen); [done|].
        exists w'. split; [|done]. apply elem_of_app. by left.
      * exists word. split; [|done]. apply elem_of_app. right.
        by apply list_elem_of_singleton.
  - simpl. split_and!; [constructor|done|done].
Qed.

(** X6: the second component returned by [populate_board] is the greatest
    length among the returned words, and 0 when no word was placed; this
    holds for every board, board size, vocabulary and direction list. *)
Theorem populate_board_max_length `{RandomSource G} (fuel : nat)
    (board : list (list (option ascii))) (board_size : Z)
    (vocabulary : list string) (directions : list (Z * Z)) (g : G) :
  (Z.to_nat (board_size - 1) * Z.to_nat (board_size - 1) ≤ fuel)%nat →
  ∃ outcome,
    populate_board fuel board board_size vocabulary directions g = Some outcome ∧
    ∀ words max_length, outcome = Ok (words, max_length) →
      Forall (λ word, Z.of_nat (String.length word) ≤ max_length) words ∧
      (words = [] → max_length = 0) ∧
      (words ≠ [] →
         ∃ word, word ∈ words ∧ Z.of_nat (String.length word) = max_length).
Proof.
  intros Hfuel.
  destruct (populate_board_is_Some fuel board board_size vocabulary directions g Hfuel)
    as [outcome Hrun].
  exists outcome. split; [done|]. intros words max_length ->.
  apply populate_board_outcome_Ok in Hrun as (st & Hrun & <- & <-).
  by apply populate_board_run_max_length in Hrun.
Qed.

Lemma populate_board_max_length_witness :
  (Z.to_nat (4 - 1) * Z.to_nat (4 - 1) ≤ 9)%nat ∧
  ∃ outcome,
    populate_board 9 (init_board 4) 4 example_vocabulary create_all_directions
      example_tape = Some outcome ∧
    ∀ words max_length, outcome = Ok (words, max_length) →
      Forall (λ word, Z.of_nat (String.length word) ≤ max_length) words ∧
      (words = [] → max_length = 0) ∧
      (words ≠ [] →
         ∃ word, word ∈ words ∧ Z.of_nat (String.length word) = max_length).
Proof.
  split; [le_by_computation|].
  apply (populate_board_max_length 9 (init_board 4) 4 example_vocabulary
           create_all_directions example_tape).
  le_by_computation.
Defined.

(** X7: the words returned by [populate_board] are vocabulary words in
    vocabulary order, each entry of the vocabulary used at most once: the
    returned list is a sublist of the vocabulary (so it is no longer than
    the vocabulary, and nothing is placed that was not asked for). *)
Theorem populate_board_words_sublist `{RandomSource G} (fuel : nat)
    (board : list (list (option ascii))) (board_size : Z)
    (vocabulary : list string) (directions : list (Z * Z)) (g : G) :
  (Z.to_nat (board_size - 1) * Z.to_nat (board_size - 1) ≤ fuel)%nat →
  ∃ outcome,
    populate_board fuel board board_size vocabulary directions g = Some outcome ∧
    ∀ words max_length, outcome = Ok (words, max_length) →
      words `sublist_of` vocabulary ∧
      (length words ≤ length vocabulary)%nat ∧
      ∀ word, word ∈ words → word ∈ vocabulary.
Proof.
  intros Hfuel.
  destruct (populate_board_is_Some fuel board board_size vocabulary directions g Hfuel)
    as [outcome Hrun].
  exists outcome. split; [done|]. intros words max_length ->.
  apply populate_board_outcome_Ok in Hrun as (st & Hrun & <- & _).
  apply for_words_sublist in Hrun as (ws & Hws & Hsub). simpl in Hws. subst ws.
  split_and!; [done|by apply sublist_length|].
  intros word Hword. by eapply elem_of_sublist.
Qed.

Lemma populate_board_words_sublist_witness :
  (Z.to_nat (4 - 1) * Z.to_nat (4 - 1) ≤ 9)%nat ∧
  ∃ outcome,
    populate_board 9 (init_board 4) 4 example_vocabulary create_all_directions
      example_tape = Some outcome ∧
    ∀ words max_length, outcome = Ok (words, max_length) →
      words `sublist_of` example_vocabulary ∧
      (length words ≤ length example_vocabulary)%nat ∧
      ∀ word, word ∈ words → word ∈ example_vocabulary.
Proof.
  split; [le_by_computation|].
  apply (populate_board_words_sublist 9 (init_board 4) 4 example_vocabulary
           create_all_directions example_tape).
  le_by_computation.
Defined.

(** ** What the engine writes *)

Lemma on_path_dec (position direction : Z * Z) (word : string) (k : nat) (p : Z * Z) :
  (∃ i ch, String.get i word = Some ch ∧ cell_of position direction (k + i) = p) ∨
  (∀ i, is_Some (String.get i word) → cell_of position direction (k + i) ≠ p).
Proof.
  revert k. induction word as [|char word IH]; intros k.
  { right. intros i [ch Hget]. by destruct i. }
  destruct (decide (cell_of position direction (k + 0) = p)) as [Heq|Hne].
  { left. by exists 0%nat, char. }
  destruct (IH (S k)) as [(i & ch & Hget & Hcell)|Hoff].
  - left. exists (S i), ch. split; [done|].
    by replace (k + S i)%nat with (S k + i)%nat by lia.
  - right. intros [|i] Hsome; [done|].
    replace (k + S i)%nat with (S k + i)%nat by lia. by apply Hoff.
Qed.

Lemma attempts_written_on_paths `{RandomSource G} board_size directions board0
    (fuel : nat) (word : string) (st st' : Engine G) :
  (0, 0) ∉ directions →
  board_wf board_size (st_board st) →
  written_on_paths board0 st →
  attempts fuel board_size word directions (next_word st) false = Some (Ok st') →
  written_on_paths board0 st'.
Proof.
  intros Hzero Hwf Hq Hloop.
  destruct (next_word_fields st) as (Hb & _ & _ & Hp & _).
  apply attempts_outcome in Hloop
    as [(Hb1 & _ & _ & Hp1)|(position & direction & Hdir & Hcan & Hplace & _ & _ & Hp1)].
  - unfold written_on_paths. by rewrite Hb1, Hp1, Hb, Hp.
  - rewrite Hb in Hcan, Hplace. rewrite Hp in Hp1.
    destruct (can_place_word_answer board_size (st_board st) word position direction
                Hwf) as (b & Hb' & Htrue).
    rewrite Hcan in Hb'. injection Hb' as <-.
    destruct (place_word_from_spec board_size position direction word) with
      (k := 0%nat) (board := st_board st)
      as (board' & Hplace' & _ & _ & _ & Hrest & _);
      [by intros ->|done|by apply Htrue|].
    unfold place_word in Hplace. change (Z.of_nat 0) with 0 in Hplace'.
    rewrite Hplace in Hplace'.
    injection Hplace' as <-.
    intros p Hr Hc. rewrite Hp1.
    destruct (on_path_dec position direction word 0 p)
      as [(i & ch & Hget & Hcell)|Hoff].
    + right. exists word, position, direction, i, ch. split_and!; [|done..].
      apply elem_of_app. right. by apply list_elem_of_singleton.
    + rewrite Hrest by done. destruct (Hq p Hr Hc) as [Hsame|Hpath]; [by left|].
      right. destruct Hpath as (W & pos & d & i & ch & Hin & Hget & Hcell).
      exists W, pos, d, i, ch. split_and!; [|done..]. apply elem_of_app. by left.
Qed.

(** X8: the engine writes nothing but the placed words.  On an N×N board
    and with non-zero directions, when [populate_board] returns, every
    cell of the board either holds what it held before the call or lies on
    the path of a recorded placement and holds that word's letter. *)
Theorem populate_board_writes_only_placements `{RandomSource G} (fuel : nat)
    (board : list (list (option ascii))) (board_size : Z)
    (vocabulary : list string) (directions : list (Z * Z)) (g : G) :
  board_wf board_size board →
  (0, 0) ∉ directions →
  (Z.to_nat (board_size - 1) * Z.to_nat (board_size - 1) ≤ fuel)%nat →
  ∃ outcome,
    populate_board_run fuel board board_size vocabulary directions g = Some outcome ∧
    ∀ st, outcome = Ok st →
      ∀ p : Z * Z, 0 ≤ p.1 → 0 ≤ p.2 →
        board_cell (st_board st) p = board_cell board p ∨
        ∃ W position direction i ch,
          (W, position, direction) ∈ st_placements st ∧
          String.get i W = Some ch ∧ cell_of position direction i = p ∧
          board_cell (st_board st) p = Some (Some ch).
Proof.
  intros Hwf Hzero Hfuel.
  destruct (populate_board_run_outcome fuel board board_size vocabulary directions g)
    as (outcome & Hrun & _ & Hok); [done..|].
  exists outcome. split; [done|]. intros st ->.
  destruct (Hok st eq_refl) as (_ & _ & _ & Hpls & _).
  assert (written_on_paths board st) as Hq.
  { unfold populate_board_run in Hrun.
    pose (P := λ st : Engine G,
            engine_ok board_size directions board st ∧ written_on_paths board st).
    apply (for_words_induct board_size directions P fuel) in Hrun; [apply Hrun| |].
    - intros word st1 st2 [Hok1 Hq1] Hloop. split.
      + eapply (attempts_preserves board_size directions
                  (engine_ok board_size directions board)); [|..|done].
        * intros st3 st4 placed Hok3 Hstep. by eapply attempt_engine_ok.
        * by apply next_word_engine_ok.
      + eapply attempts_written_on_paths; [done| |done..]. apply Hok1.
    - split; [by apply populate_start_engine_ok|]. intros p _ _. by left. }
  intros p Hr Hc. destruct (Hq p Hr Hc) as [Hsame|Hpath]; [by left|right].
  destruct Hpath as (W & pos & d & i & ch & Hin & Hget & Hcell).
  exists W, pos, d, i, ch. split_and!; [done..|].
  rewrite Forall_forall in Hpls. destruct (Hpls _ Hin) as (_ & _ & Hreads).
  destruct (Hreads i ch Hget) as [_ Hletter]. simpl in Hletter. by rewrite <- Hcell.
Qed.

Lemma populate_board_writes_only_placements_witness :
  board_wf 4 (init_board 4) ∧
  ((0, 0) ∉ create_all_directions) ∧
  (Z.to_nat (4 - 1) * Z.to_nat (4 - 1) ≤ 9)%nat ∧
  ∃ outcome,
    populate_board_run 9 (init_board 4) 4 example_vocabulary create_all_directions
      example_tape = Some outcome ∧
    ∀ st, outcome = Ok st →
      ∀ p : Z * Z, 0 ≤ p.1 → 0 ≤ p.2 →
        board_cell (st_board st) p = board_cell (init_board 4) p ∨
        ∃ W position direction i ch,
          (W, position, direction) ∈ st_placements st ∧
          String.get i W = Some ch ∧ cell_of position direction i = p ∧
          board_cell (st_board st) p = Some (Some ch).
Proof.
  split_and!;
    [board_wf_by_computation|not_elem_of_by_computation|le_by_computation|].
  apply (populate_board_writes_only_placements 9 (init_board 4) 4 example_vocabulary
           create_all_directions example_tape);
    [board_wf_by_computation|not_elem_of_by_computation|le_by_computation].
Defined.

(** X9: no start position is lost or duplicated from one word to the
    next.  When [populate_board] returns, the positions left in the pool
    together with the popped ones are a permutation of the initial pool,
    for every board, vocabulary and direction list. *)
Theorem populate_board_keeps_pool `{RandomSource G} (fuel : nat)
    (board : list (list (option ascii))) (board_size : Z)
    (vocabulary : list string) (directions : list (Z * Z)) (g : G) :
  (Z.to_nat (board_size - 1) * Z.to_nat (board_size - 1) ≤ fuel)%nat →
  ∃ outcome,
    populate_board_run fuel board board_size vocabulary directions g = Some outcome ∧
    ∀ st, outcome = Ok st →
      st_positions st ++ st_pop_positions st ≡ₚ initial_positions board_size.
Proof.
  intros Hfuel. rewrite <- length_initial_positions in Hfuel.
  assert (pool_inv board_size (populate_start board board_size g)) as Hstart.
  { unfold pool_inv. simpl. by rewrite app_nil_r. }
  destruct (for_words_terminates board_size directions fuel vocabulary
              (populate_start board board_size g) Hfuel Hstart) as [outcome Hrun].
  exists outcome. split; [done|]. intros st ->.
  apply (for_words_induct board_size directions (pool_inv board_size) fuel) in Hrun;
    [done| |done].
  intros word st1 st2 Hpool Hloop.
  eapply (attempts_preserves board_size directions (pool_inv board_size)); [|..|done].
  - intros st3 st4 placed Hpool3 Hstep. by eapply attempt_pool_inv.
  - by apply next_word_pool_inv.
Qed.

Lemma populate_board_keeps_pool_witness :
  (Z.to_nat (4 - 1) * Z.to_nat (4 - 1) ≤ 9)%nat ∧
  ∃ outcome,
    populate_board_run 9 (init_board 4) 4 example_vocabulary create_all_directions
      example_tape = Some outcome ∧
    ∀ st, outcome = Ok st →
      st_positions st ++ st_pop_positions st ≡ₚ initial_positions 4.
Proof.
  split; [le_by_computation|].
  apply (populate_board_keeps_pool 9 (init_board 4) 4 example_vocabulary
           create_all_directions example_tape).
  le_by_computation.
Defined.

(** ** Edge cases of the engine *)

Lemma initial_positions_bounds board_size (p : Z * Z) :
  p ∈ initial_positions board_size →
  0 ≤ p.1 ≤ board_size - 2 ∧ 0 ≤ p.2 ≤ board_size - 2.
Proof.
  destruct p as [r c]. unfold initial_positions.
  rewrite elem_of_product, !elem_of_range. simpl. lia.
Qed.



(** X11: on a board of size 1 (or less) nothing is ever placed, not even a
    one-letter word: the pool of start positions is empty, so
    [populate_board] returns the empty list and 0 and leaves the board as
    it was, whatever the vocabulary, the direction list and the number of
    iterations allowed. *)
Theorem populate_board_size_one `{RandomSource G} (fuel : nat)
    (board : list (list (option ascii))) (board_size : Z)
    (vocabulary : list string) (directions : list (Z * Z)) (g : G) :
  board_size ≤ 1 →
  initial_positions board_size = [] ∧
  populate_board fuel board board_size vocabulary directions g = Some (Ok ([], 0)) ∧
  ∃ st, populate_board_run fuel board board_size vocabulary directions g = Some (Ok st)
        ∧ st_board st = board ∧ st_placements st = [].
Proof.
  intros Hsize.
  assert (initial_positions board_size = []) as Hnil.
  { unfold initial_positions, range. by rewrite seqZ_nil by lia. }
  destruct (for_words_empty_pool fuel board_size vocabulary directions
              (populate_start board board_size g)) as (st & Hrun & Hb & Hw & Hm & Hp);
    [by simpl|done|].
  split_and!; [done| |by exists st].
  unfold populate_board, populate_board_run. by rewrite Hrun, Hw, Hm.
Qed.

Lemma populate_board_size_one_witness :
  1 ≤ 1 ∧
  populate_board 9 (init_board 1) 1 ["A"] create_all_directions example_tape
    = Some (Ok ([], 0)).
Proof.
  split; [lia|].
  apply (populate_board_size_one 9 (init_board 1) 1 ["A"] create_all_directions
           example_tape).
  lia.
Defined.

Lemma reads_length board_size (board : list (list (option ascii))) (word : string)
    (position direction : Z * Z) :
  direction ≠ (0, 0) → 0 ≤ board_size →
  reads board board_size word position direction →
  Z.of_nat (String.length word) ≤ board_size.
Proof.
  intros Hdir Hsize Hreads.
  apply (fits_length board_size board word position direction Hdir Hsize).
  intros i ch Hget. destruct (Hreads i ch Hget) as [Hin Hcell]. auto.
Qed.

(** X12: no placed word is longer than the board.  On an N×N board and
    with non-zero directions, every word returned by [populate_board] has
    at most N characters. *)
Theorem populate_board_words_not_longer_than_board `{RandomSource G} (fuel : nat)
    (board : list (list (option ascii))) (board_size : Z)
    (vocabulary : list string) (directions : list (Z * Z)) (g : G) :
  board_wf board_size board →
  (0, 0) ∉ directions →
  (Z.to_nat (board_size - 1) * Z.to_nat (board_size - 1) ≤ fuel)%nat →
  ∃ outcome,
    populate_board fuel board board_size vocabulary directions g = Some outcome ∧
    ∀ words max_length, outcome = Ok (words, max_length) →
      Forall (λ word, Z.of_nat (String.length word) ≤ board_size) words.
Proof.
  intros Hwf Hzero Hfuel.
  destruct (populate_board_run_outcome fuel board board_size vocabulary directions g)
    as (outcome & Hrun & _ & Hok); [done..|].
  unfold populate_board. rewrite Hrun. destruct outcome as [st|e]; [|by eexists].
  eexists. split; [done|]. intros words max_length [= <- <-].
  destruct (Hok st eq_refl) as (_ & _ & _ & Hpls & ->).
  apply Forall_fmap. eapply Forall_impl; [done|].
  intros [[W position] direction] (Hd & Hp & Hreads). simpl in *.
  apply (initial_positions_bounds board_size) in Hp.
  apply (reads_length board_size (st_board st) W position direction);
    [by intros ->|lia|done].
Qed.

Lemma populate_board_words_not_longer_than_board_witness :
  board_wf 4 (init_board 4) ∧
  ((0, 0) ∉ create_all_directions) ∧
  (Z.to_nat (4 - 1) * Z.to_nat (4 - 1) ≤ 9)%nat ∧
  ∃ outcome,
    populate_board 9 (init_board 4) 4 example_vocabulary create_all_directions
      example_tape = Some outcome ∧
    ∀ words max_length, outcome = Ok (words, max_length) →
      Forall (λ word, Z.of_nat (String.length word) ≤ 4) words.
Proof.
  split_and!;
    [board_wf_by_computation|not_elem_of_by_computation|le_by_computation|].
  apply (populate_board_words_not_longer_than_board 9 (init_board 4) 4
           example_vocabulary create_all_directions example_tape);
    [board_wf_by_computation|not_elem_of_by_computation|le_by_computation].
Defined.

(** ** The filler on full and on short boards *)

Lemma for_each_fixed {A S} (l : list A) (body : A → S → result S) (s : S) :
  (∀ x, x ∈ l → body x s = Ok s) → for_each l body s = Ok s.
Proof.
  induction l as [|x l IH]; intros Hbody; simpl; [done|].
  rewrite Hbody by apply list_elem_of_here. simpl.
  apply IH. intros y Hy. apply Hbody. by apply list_elem_of_further.
Qed.

Lemma for_each_app {A S} (l1 l2 : list A) (body : A → S → result S) (s : S) :
  for_each (l1 ++ l2) body s = for_each l1 body s ≫= for_each l2 body.
Proof.
  revert s. induction l1 as [|x l1 IH]; intros s; simpl; [done|].
  destruct (body x s) as [s'|e]; simpl; [apply IH|done].
Qed.

Lemma fill_empty_cells_full `{RandomSource G} board_size
    (board : list (list (option ascii))) (g : G) :
  board_wf board_size board →
  (∀ p, in_grid board_size p → ∃ ch, board_cell board p = Some (Some ch)) →
  fill_empty_cells board board_size g = Ok (board, g).
Proof.
  intros Hwf Hfull. unfold fill_empty_cells.
  apply for_each_fixed. intros row Hrow%elem_of_range.
  apply for_each_fixed. intros col Hcol%elem_of_range.
  assert (in_grid board_size (row, col)) as Hin by done.
  unfold fill_cell.
  destruct (board_getitem_in_grid _ _ _ _ Hwf Hin) as (cell & Hcell & ->). simpl.
  destruct (Hfull _ Hin) as [ch Hch]. rewrite Hch in Hcell. by injection Hcell as <-.
Qed.

(** X13: filling is idempotent.  On an N×N board the filler returns a
    board on which a second pass changes nothing and draws no random
    number: it returns the same board and the generator it was given. *)
Theorem fill_empty_cells_twice `{RandomSource G} (board_size : Z)
    (board : list (list (option ascii))) (g : G) :
  board_wf board_size board →
  ∃ board' g',
    fill_empty_cells board board_size g = Ok (board', g') ∧
    ∀ g2 : G, fill_empty_cells board' board_size g2 = Ok (board', g2).
Proof.
  intros Hwf.
  destruct (fill_empty_cells_spec board_size board g Hwf)
    as (board' & g' & Hrun & (_ & Hwf' & _) & Hcells).
  exists board', g'. split; [done|]. intros g2.
  by apply fill_empty_cells_full.
Qed.

Lemma fill_empty_cells_twice_witness :
  board_wf 4 example_board ∧
  ∃ board' g',
    fill_empty_cells example_board 4 example_tape = Ok (board', g') ∧
    ∀ g2 : list nat, fill_empty_cells board' 4 g2 = Ok (board', g2).
Proof.
  split; [board_wf_by_computation|].
  apply (fill_empty_cells_twice 4 example_board example_tape).
  board_wf_by_computation.
Defined.

Lemma range_split (a b c : Z) : a ≤ b ≤ c → range a c = range a b ++ range b c.
Proof.
  intros Habc. unfold range.
  replace (c - a) with ((b - a) + (c - b)) by lia.
  rewrite seqZ_app by lia. by replace (a + (b - a)) with b by lia.
Qed.

Lemma range_cons (a b : Z) : a < b → range a b = a :: range (a + 1) b.
Proof.
  intros Hab. unfold range. rewrite seqZ_cons by lia. f_equal.
  by replace (Z.succ a) with (a + 1) by lia; replace (Z.pred (b - a)) with (b - (a + 1)) by lia.
Qed.

(** X14: the filler trusts [board_size].  When the board is M×M with
    0 <= M < board_size, the call raises IndexError (in the first row, at
    the first index past the board; the cells filled before that stay
    filled on the caller's board, the model returns the exception only). *)
Theorem fill_empty_cells_short_board `{RandomSource G} (board_size actual_size : Z)
    (board : list (list (option ascii))) (g : G) :
  board_wf actual_size board → 0 ≤ actual_size < board_size →
  fill_empty_cells board board_size g = Err IndexError.
Proof.
  intros Hwf Hsize. unfold fill_empty_cells. cbv zeta.
  rewrite (range_cons 0 board_size) at 1 by lia. cbn [for_each]. cbv beta.
  change (λ col : Z, fill_cell (ord "A") (ord "Z") 0 col)
    with (fill_cell (ord "A") (ord "Z") 0).
  assert (for_each (range 0 board_size) (fill_cell (ord "A") (ord "Z") 0) (board, g)
          = Err IndexError) as ->; [|done].
  rewrite (range_split 0 actual_size board_size) by lia. rewrite for_each_app.
  rewrite (range_cons actual_size board_size) by lia.
  destruct (decide (actual_size = 0)) as [->|Hpos].
  - destruct Hwf as [Hlen _]. destruct board; [|done]. done.
  - destruct (fill_row_spec actual_size (range 0 actual_size) 0) with
      (board := board) (g := g) as (board1 & g1 & -> & (_ & Hwf1 & _) & _);
      [lia| |done|].
    { apply Forall_forall. intros k Hk. by apply elem_of_range in Hk. }
    cbn [mbind result_bind for_each]. unfold fill_cell, board_getitem.
    destruct (getitem_in_range board1 0) as (board_row & Hrow & ->).
    { destruct Hwf1 as [-> _]. lia. }
    pose proof (board_wf_row _ _ _ _ Hwf1 Hrow) as Hlen. cbn [mbind result_bind].
    unfold getitem. by rewrite py_index_out by lia.
Qed.

Lemma fill_empty_cells_short_board_witness :
  board_wf 4 example_board ∧ 0 ≤ 4 < 5 ∧
  fill_empty_cells example_board 5 example_tape = Err IndexError.
Proof.
  split_and!; [board_wf_by_computation|lia|lia|].
  apply (fill_empty_cells_short_board 5 4 example_board example_tape);
    [board_wf_by_computation|lia].
Defined.

(** ** The board text *)

Lemma chars_app (s1 s2 : string) :
  String.list_ascii_of_string (s1 +:+ s2)
  = String.list_ascii_of_string s1 ++ String.list_ascii_of_string s2.
Proof. induction s1 as [|c s1 IH]; simpl; [done|]. by rewrite IH. Qed.

Lemma length_chars (s : string) :
  length (String.list_ascii_of_string s) = String.length s.
Proof. induction s as [|c s IH]; simpl; [done|]. by rewrite IH. Qed.

Lemma get_chars (s : string) (i : nat) :
  String.get i s = String.list_ascii_of_string s !! i.
Proof.
  revert i. induction s as [|c s IH]; intros i; simpl; [by destruct i|].
  destruct i as [|i]; [done|]. apply IH.
Qed.

Lemma length_app_string (s1 s2 : string) :
  String.length (s1 +:+ s2) = (String.length s1 + String.length s2)%nat.
Proof. by rewrite <- !length_chars, chars_app, length_app. Qed.

Lemma join_cons_cons (sep x y : string) (items : list string) :
  join sep (x :: y :: items) = x +:+ sep +:+ join sep (y :: items).
Proof. done. Qed.

(** The text of items of one length [L] joined by a one-character
    separator: item [r] starts at index [r·(L+1)]. *)
Lemma join_uniform (sepc : ascii) (L : nat) (items : list string) :
  Forall (λ s, String.length s = L) items →
  (items ≠ [] →
   String.length (join (String sepc EmptyString) items)
   = (length items * (L + 1) - 1)%nat) ∧
  (∀ r j s, items !! r = Some s → (j < L)%nat →
     String.get (r * (L + 1) + j) (join (String sepc EmptyString) items)
     = String.get j s) ∧
  (∀ r, (S r < length items)%nat →
     String.get (r * (L + 1) + L) (join (String sepc EmptyString) items)
     = Some sepc).
Proof.
  induction 1 as [|x items Hx Hitems IH].
  { split_and!; [done|by intros []|simpl; lia]. }
  destruct items as [|y items].
  { split_and!.
    - intros _. simpl. lia.
    - intros [|r] j s Hs Hj; [|done]. by injection Hs as <-.
    - intros r Hr. simpl in Hr. lia. }
  destruct IH as (IHlen & IHitem & IHsep). rewrite join_cons_cons.
  assert (∀ i, (L < i)%nat →
            String.get i (x +:+ String sepc EmptyString
                            +:+ join (String sepc EmptyString) (y :: items))
            = String.get (i - (L + 1))
                (join (String sepc EmptyString) (y :: items))) as Hskip.
  { intros i Hi. rewrite !get_chars, !chars_app.
    rewrite lookup_app_r by (rewrite length_chars; lia).
    rewrite length_chars, Hx. simpl.
    destruct (i - L)%nat as [|i'] eqn:Hi'; [lia|]. simpl. f_equal. lia. }
  split_and!.
  - intros _. rewrite !length_app_string, IHlen by done. simpl. rewrite Hx. lia.
  - intros [|r] j s Hs Hj; simpl in Hs.
    + injection Hs as <-. rewrite !get_chars, chars_app.
      by rewrite lookup_app_l by (rewrite length_chars; lia).
    + rewrite Hskip by lia. rewrite <- (IHitem r j s) by done. f_equal. lia.
  - intros [|r] Hr.
    + rewrite !get_chars, !chars_app.
      rewrite lookup_app_r by (rewrite length_chars; lia).
      rewrite length_chars, Hx. by replace (0 * (L + 1) + L - L)%nat with 0%nat by lia.
    + rewrite Hskip by lia. rewrite <- (IHsep r) by (simpl in *; lia). f_equal. lia.
Qed.

Lemma heredoc_line (row : list ascii) :
  row ≠ [] →
  String.length (join " " (cell_str <$> row)) = (2 * length row - 1)%nat ∧
  (∀ c, String.get (2 * c) (join " " (cell_str <$> row)) = row !! c) ∧
  (∀ c, (S c < length row)%nat →
     String.get (2 * c + 1) (join " " (cell_str <$> row)) = Some " "%char).
Proof.
  intros Hrow.
  destruct (join_uniform " " 1 (cell_str <$> row)) as (Hlen & Hitem & Hsep).
  { apply Forall_fmap, Forall_true. done. }
  split_and!.
  - rewrite Hlen by (by destruct row). rewrite length_fmap. lia.
  - intros c. destruct (row !! c) as [x|] eqn:Hx.
    + replace (2 * c)%nat with (c * (1 + 1) + 0)%nat by lia.
      rewrite (Hitem c 0%nat (cell_str x)); [done| |lia].
      by rewrite list_lookup_fmap, Hx.
    + apply lookup_ge_None in Hx. rewrite get_chars. apply lookup_ge_None.
      rewrite length_chars, Hlen by (by destruct row). rewrite length_fmap. lia.
  - intros c Hc. replace (2 * c + 1)%nat with (c * (1 + 1) + 1)%nat by lia.
    apply Hsep. by rewrite length_fmap.
Qed.

Lemma heredoc_layout (board : list (list ascii)) (C : nat) :
  (1 ≤ C)%nat → Forall (λ row, length row = C) board →
  (board ≠ [] →
   String.length (board_to_heredoc board) = (length board * (2 * C) - 1)%nat) ∧
  (∀ r c, (c < C)%nat →
     String.get (r * (2 * C) + 2 * c) (board_to_heredoc board)
     = board !! r ≫= (.!! c)) ∧
  (∀ r c, (r < length board)%nat → (S c < C)%nat →
     String.get (r * (2 * C) + 2 * c + 1) (board_to_heredoc board) = Some " "%char) ∧
  (∀ r, (S r < length board)%nat →
     String.get (r * (2 * C) + (2 * C - 1)) (board_to_heredoc board) = Some "010"%char).
Proof.
  intros HC Hrows. unfold board_to_heredoc, newline.
  set (line := λ row : list ascii, join " " (cell_str <$> row)).
  assert (∀ row, length row = C → String.length (line row) = (2 * C - 1)%nat) as Hline.
  { intros row Hrow.
    destruct (heredoc_line row) as (Hlen & _); [intros ->; simpl in *; lia|].
    unfold line. rewrite Hlen. lia. }
  destruct (join_uniform "010" (2 * C - 1) (line <$> board)) as (Hlen & Hitem & Hsep).
  { apply Forall_fmap. eapply Forall_impl; [done|]. intros row Hrow. by apply Hline. }
  replace (2 * C - 1 + 1)%nat with (2 * C)%nat in * by lia.
  split_and!.
  - intros Hne. rewrite Hlen by (by destruct board). by rewrite length_fmap.
  - intros r c Hc. destruct (board !! r) as [row|] eqn:Hrow; cbn [mbind option_bind].
    + rewrite (Hitem r (2 * c)%nat (line row)); [|by rewrite list_lookup_fmap, Hrow|lia].
      destruct (heredoc_line row) as (_ & Hget & _); [|apply Hget].
      rewrite Forall_lookup in Hrows. apply Hrows in Hrow.
      intros ->; simpl in *; lia.
    + apply lookup_ge_None in Hrow. rewrite get_chars. apply lookup_ge_None.
      rewrite length_chars. destruct board as [|row0 board']; [simpl; lia|].
      rewrite Hlen by done. rewrite length_fmap. simpl in *. nia.
  - intros r c Hr Hc. destruct (lookup_lt_is_Some_2 board r Hr) as [row Hrow].
    replace (r * (2 * C) + 2 * c + 1)%nat with (r * (2 * C) + (2 * c + 1))%nat by lia.
    rewrite (Hitem r (2 * c + 1)%nat (line row));
      [|by rewrite list_lookup_fmap, Hrow|lia].
    destruct (heredoc_line row) as (_ & _ & Hspace); [|apply Hspace].
    + rewrite Forall_lookup in Hrows. apply Hrows in Hrow.
      intros ->; simpl in *; lia.
    + rewrite Forall_lookup in Hrows. apply Hrows in Hrow. lia.
  - intros r Hr. apply Hsep. by rewrite length_fmap.
Qed.

(** X15: the layout of the board text.  For a board of rows of C >= 1
    characters each, [board_to_heredoc] gives lines of 2C-1 characters
    separated by a newline: the character of cell (r, c) is at index
    r·2C + 2c, followed by a space unless it ends its row; a newline ends
    every row but the last, and nothing follows the last row. *)
Theorem board_to_heredoc_layout (board : list (list ascii)) (C : nat) :
  (1 ≤ C)%nat → Forall (λ row, length row = C) board →
  (board ≠ [] →
   String.length (board_to_heredoc board) = (length board * (2 * C) - 1)%nat) ∧
  (∀ r c, (c < C)%nat →
     String.get (r * (2 * C) + 2 * c) (board_to_heredoc board)
     = board !! r ≫= (.!! c)) ∧
  (∀ r c, (r < length board)%nat → (S c < C)%nat →
     String.get (r * (2 * C) + 2 * c + 1) (board_to_heredoc board) = Some " "%char) ∧
  (∀ r, (S r < length board)%nat →
     String.get (r * (2 * C) + (2 * C - 1)) (board_to_heredoc board) = Some "010"%char).
Proof. apply heredoc_layout. Qed.

Lemma board_to_heredoc_layout_witness :
  (1 ≤ 2)%nat ∧
  Forall (λ row, length row = 2%nat) [["A"; "B"]; ["C"; "D"]]%char ∧
  ([["A"; "B"]; ["C"; "D"]]%char ≠ [] →
   String.length (board_to_heredoc [["A"; "B"]; ["C"; "D"]]%char)
   = (length [["A"; "B"]; ["C"; "D"]]%char * (2 * 2) - 1)%nat).
Proof.
  split_and!; [lia|by repeat constructor|].
  apply (board_to_heredoc_layout [["A"; "B"]; ["C"; "D"]]%char 2);
    [lia|by repeat constructor].
Defined.

(** ** The word list text *)

Lemma py_slice_inside {A} (l : list A) (a b : Z) :
  0 ≤ a ≤ b → b ≤ Z.of_nat (length l) →
  py_slice l a b = take (Z.to_nat (b - a)) (drop (Z.to_nat a) l).
Proof.
  intros Hab Hb. unfold py_slice, slice_bound.
  rewrite !bool_decide_eq_false_2 by lia.
  by rewrite !Z.min_l by lia.
Qed.

Lemma take_min_length {A} (l : list A) (k : nat) :
  take (k `min` length l) l = take k l.
Proof.
  destruct (decide (k ≤ length l)%nat).
  - by rewrite Nat.min_l by lia.
  - rewrite Nat.min_r by lia. by rewrite !take_ge by lia.
Qed.

Lemma chunk_rows_S show words k m :
  chunk_rows show words k (S m)
  = chunk_rows show words k m ++ [show <$> take k (drop (m * k) words)].
Proof. unfold chunk_rows. by rewrite seq_S, fmap_app. Qed.

Lemma chunk_rows_concat show words k m :
  concat (chunk_rows show words k m) = show <$> take (m * k) words.
Proof.
  induction m as [|m IH]; [done|].
  rewrite chunk_rows_S, concat_app, IH. simpl. rewrite app_nil_r, <- fmap_app.
  f_equal. rewrite take_take_drop. f_equal. lia.
Qed.

Section formatter.
Variables (words : list string) (n_words_per_row word_justified_length : Z).
Variable display : bool.
Hypothesis positive_row : 0 < n_words_per_row.

Lemma rows_step_inv (st : Rows) :
  rows_inv words n_words_per_row word_justified_length display st →
  n_inserted_words st < Z.of_nat (length words) →
  rows_inv words n_words_per_row word_justified_length display
    (rows_step words n_words_per_row word_justified_length display st) ∧
  n_inserted_words st
  < n_inserted_words (rows_step words n_words_per_row word_justified_length display st).
Proof.
  intros (Ha & Hm & Hrows & Hdisp) Hlt.
  set (n := Z.of_nat (length words)) in *.
  set (m := length (word_rows st)) in *.
  assert (n_inserted_words st = n_words_per_row * Z.of_nat m) as Ha' by lia.
  assert (py_slice words (n_inserted_words st)
            (n_inserted_words st + Z.min (n - n_inserted_words st) n_words_per_row)
          = take (Z.to_nat n_words_per_row) (drop (m * Z.to_nat n_words_per_row) words))
    as Hslice.
  { rewrite py_slice_inside by (fold n; lia).
    replace (Z.to_nat (n_inserted_words st)) with (m * Z.to_nat n_words_per_row)%nat
      by nia.
    rewrite <- (take_min_length _ (Z.to_nat n_words_per_row)). f_equal.
    rewrite length_drop. unfold n in *. nia. }
  unfold rows_inv, rows_step. cbn [word_rows displayed_word_rows n_inserted_words].
  fold n. rewrite Hslice, length_app. simpl. fold m.
  replace (m + 1)%nat with (S m) by lia.
  split; [|lia]. split_and!.
  - nia.
  - right. nia.
  - rewrite chunk_rows_S. by f_equal.
  - destruct display; [|done]. rewrite chunk_rows_S. by f_equal.
Qed.

Lemma rows_loop_inv (fuel : nat) (st : Rows) :
  rows_inv words n_words_per_row word_justified_length display st →
  Z.of_nat (length words) - n_inserted_words st ≤ Z.of_nat fuel →
  ∃ st', rows_loop fuel words n_words_per_row word_justified_length display st
         = Some st' ∧
         rows_inv words n_words_per_row word_justified_length display st' ∧
         Z.of_nat (length words) ≤ n_inserted_words st'.
Proof.
  revert st. induction fuel as [|fuel IH]; intros st Hinv Hfuel; simpl.
  - rewrite bool_decide_eq_false_2 by lia. exists st. split_and!; [done..|lia].
  - case_bool_decide as Hlt; [|exists st; split_and!; [done..|lia]].
    destruct (rows_step_inv st Hinv Hlt) as [Hinv' Hgrow]. apply IH; [done|lia].
Qed.

(** The rows the loop returns. *)
Lemma rows_loop_chunks (fuel : nat) :
  (length words ≤ fuel)%nat →
  ∃ st,
    rows_loop fuel words n_words_per_row word_justified_length display (MkRows [] [] 0)
    = Some st ∧
    Z.of_nat (length (word_rows st))
    = (Z.of_nat (length words) + n_words_per_row - 1) / n_words_per_row ∧
    word_rows st
    = chunk_rows (quoted_entry word_justified_length) words
        (Z.to_nat n_words_per_row) (length (word_rows st)) ∧
    displayed_word_rows st
    = (if display
       then chunk_rows (displayed_entry word_justified_length) words
              (Z.to_nat n_words_per_row) (length (word_rows st))
       else []) ∧
    concat (word_rows st) = quoted_entry word_justified_length <$> words.
Proof.
  intros Hfuel.
  destruct (rows_loop_inv fuel (MkRows [] [] 0)) as (st & Hrun & Hinv & Hdone).
  { unfold rows_inv. simpl. split_and!; [lia|by left|done|by destruct display]. }
  { simpl. lia. }
  destruct Hinv as (Ha & Hm & Hrows & Hdisp).
  exists st. split_and!; [done| |done|done|].
  - apply Z.div_unique with
      (r := Z.of_nat (length words) + n_words_per_row - 1
            - n_words_per_row * Z.of_nat (length (word_rows st))); [|lia].
    left. destruct Hm as [Hm|Hm]; [rewrite Hm in *|]; lia.
  - rewrite Hrows at 1. rewrite chunk_rows_concat. f_equal.
    apply take_ge. nia.
Qed.

End formatter.

(** X16: the rows of the word list text.  With a positive number of words
    per row (and as many iterations allowed as there are words) the loop
    of [words_to_formatted_2d] ends with ceil(n / k) rows; row i holds the
    words i·k .. i·k+k-1, each between quotes and padded to the given width
    plus 2, so every word appears once, in order; the displayed rows hold
    the same words without quotes, or nothing when display is off; and the
    function returns these rows joined by ", " and ",\n", with a final
    comma. *)
Theorem words_to_formatted_2d_rows (fuel : nat) (words : list string)
    (n_words_per_row word_justified_length : Z) (display : bool) :
  0 < n_words_per_row → (length words ≤ fuel)%nat →
  ∃ st,
    rows_loop fuel words n_words_per_row word_justified_length display (MkRows [] [] 0)
    = Some st ∧
    Z.of_nat (length (word_rows st))
    = (Z.of_nat (length words) + n_words_per_row - 1) / n_words_per_row ∧
    word_rows st
    = chunk_rows (quoted_entry word_justified_length) words
        (Z.to_nat n_words_per_row) (length (word_rows st)) ∧
    displayed_word_rows st
    = (if display
       then chunk_rows (displayed_entry word_justified_length) words
              (Z.to_nat n_words_per_row) (length (word_rows st))
       else []) ∧
    concat (word_rows st) = quoted_entry word_justified_length <$> words ∧
    words_to_formatted_2d fuel words n_words_per_row word_justified_length display
    = Some (join ("," +:+ newline) (join ", " <$> word_rows st) +:+ ",",
            if display then join newline (join "      " <$> displayed_word_rows st)
            else EmptyString).
Proof.
  intros Hk Hfuel.
  destruct (rows_loop_chunks words n_words_per_row word_justified_length display Hk
              fuel Hfuel) as (st & Hrun & Hcount & Hrows & Hdisp & Hconcat).
  exists st. split_and!; [done..|].
  unfold words_to_formatted_2d. by rewrite Hrun.
Qed.

Lemma words_to_formatted_2d_rows_witness :
  0 < 2 ∧ (length ["CAR"; "CAT"; "HORSE"] ≤ 3)%nat ∧
  ∃ st,
    rows_loop 3 ["CAR"; "CAT"; "HORSE"] 2 5 true (MkRows [] [] 0) = Some st ∧
    concat (word_rows st) = quoted_entry 5 <$> ["CAR"; "CAT"; "HORSE"].
Proof.
  split_and!; [lia|simpl; lia|].
  destruct (words_to_formatted_2d_rows 3 ["CAR"; "CAT"; "HORSE"] 2 5 true)
    as (st & Hrun & _ & _ & _ & Hconcat & _); [lia|simpl; lia|].
  by exists st.
Defined.

(** X17: with a number of words per row that is zero or negative and at
    least one word, the loop of [words_to_formatted_2d] never ends: the
    count of inserted words never grows, so no number of iterations reaches
    the exit. *)
Theorem words_to_formatted_2d_never_ends (fuel : nat) (words : list string)
    (n_words_per_row word_justified_length : Z) (display : bool) :
  n_words_per_row ≤ 0 → words ≠ [] →
  words_to_formatted_2d fuel words n_words_per_row word_justified_length display
  = None.
Proof.
  intros Hk Hwords. unfold words_to_formatted_2d.
  assert (∀ st, n_inserted_words st ≤ 0 →
            rows_loop fuel words n_words_per_row word_justified_length display st
            = None) as Hloop.
  { assert (0 < Z.of_nat (length words)) as Hn by (destruct words; [done|simpl; lia]).
    induction fuel as [|fuel IH]; intros st Ha; simpl;
      rewrite bool_decide_eq_true_2 by lia; [done|].
    apply IH. simpl. lia. }
  by rewrite Hloop.
Qed.

Lemma words_to_formatted_2d_never_ends_witness :
  0 ≤ 0 ∧ ["CAR"] ≠ [] ∧ words_to_formatted_2d 100 ["CAR"] 0 5 true = None.
Proof.
  split_and!; [lia|done|].
  apply (words_to_formatted_2d_never_ends 100 ["CAR"] 0 5 true); [lia|done].
Defined.

(** ** Column alignment *)

Lemma length_spaces (n : nat) : String.length (spaces n) = n.
Proof. induction n as [|n IH]; simpl; [done|]. by rewrite IH. Qed.

Lemma length_ljust (s : string) (width : Z) :
  Z.of_nat (String.length (ljust s width)) = Z.max (Z.of_nat (String.length s)) width.
Proof. unfold ljust. rewrite length_app_string, length_spaces. lia. Qed.

Lemma length_quoted (word : string) :
  String.length (quoted word) = (String.length word + 2)%nat.
Proof. unfold quoted. rewrite !length_app_string. simpl. lia. Qed.

Lemma Forall_concat_inv {A} (P : A → Prop) (ls : list (list A)) :
  Forall P (concat ls) → Forall (Forall P) ls.
Proof.
  induction ls as [|l ls IH]; simpl; [constructor|].
  intros [Hl Hls]%Forall_app. constructor; [done|by apply IH].
Qed.

Lemma rows_aligned (fuel : nat) (words : list string)
    (n_words_per_row word_justified_length : Z) (display : bool) :
  0 < n_words_per_row → (length words ≤ fuel)%nat →
  Forall (λ word, Z.of_nat (String.length word) ≤ word_justified_length) words →
  ∃ st,
    rows_loop fuel words n_words_per_row word_justified_length display (MkRows [] [] 0)
    = Some st ∧
    Forall (Forall (λ entry, Z.of_nat (String.length entry) = word_justified_length + 2))
      (word_rows st).
Proof.
  intros Hk Hfuel Hshort.
  destruct (rows_loop_chunks words n_words_per_row word_justified_length display Hk
              fuel Hfuel) as (st & Hrun & _ & _ & _ & Hconcat).
  exists st. split; [done|]. apply Forall_concat_inv. rewrite Hconcat.
  apply Forall_fmap. eapply Forall_impl; [done|]. intros word Hword.
  cbv beta in Hword. unfold compose, quoted_entry.
  rewrite length_ljust, length_quoted. lia.
Qed.

(** X18: the columns of the word list text line up.  When no word is
    longer than the given width (and the number of words per row is
    positive), every entry of every row is exactly width + 2 characters
    long. *)
Theorem words_to_formatted_2d_aligned (fuel : nat) (words : list string)
    (n_words_per_row word_justified_length : Z) (display : bool) :
  0 < n_words_per_row → (length words ≤ fuel)%nat →
  Forall (λ word, Z.of_nat (String.length word) ≤ word_justified_length) words →
  ∃ st,
    rows_loop fuel words n_words_per_row word_justified_length display (MkRows [] [] 0)
    = Some st ∧
    Forall (Forall (λ entry, Z.of_nat (String.length entry) = word_justified_length + 2))
      (word_rows st).
Proof. apply rows_aligned. Qed.

Lemma words_to_formatted_2d_aligned_witness :
  0 < 2 ∧ (length ["CAR"; "CAT"; "HORSE"] ≤ 3)%nat ∧
  Forall (λ word, Z.of_nat (String.length word) ≤ 5) ["CAR"; "CAT"; "HORSE"] ∧
  ∃ st,
    rows_loop 3 ["CAR"; "CAT"; "HORSE"] 2 5 true (MkRows [] [] 0) = Some st ∧
    Forall (Forall (λ entry, Z.of_nat (String.length entry) = 5 + 2)) (word_rows st).
Proof.
  split_and!; [lia|simpl; lia|repeat constructor; simpl; lia|].
  apply (words_to_formatted_2d_aligned 3 ["CAR"; "CAT"; "HORSE"] 2 5 true);
    [lia|simpl; lia|repeat constructor; simpl; lia].
Defined.

(** ** From the engine to the texts *)

(** X19: the width that [main] passes to the formatter lines the columns
    up.  The words returned by [populate_board], in any order ([main]
    sorts them), formatted with the returned maximum as the justified
    length, give entries that are all exactly maximum + 2 characters long,
    for every board, vocabulary, direction list and positive number of
    words per row. *)
Theorem populate_board_then_format_aligned `{RandomSource G} (fuel fuel' : nat)
    (board : list (list (option ascii))) (board_size : Z)
    (vocabulary : list string) (directions : list (Z * Z)) (g : G)
    (n_words_per_row : Z) (display : bool) :
  (Z.to_nat (board_size - 1) * Z.to_nat (board_size - 1) ≤ fuel)%nat →
  0 < n_words_per_row → (length vocabulary ≤ fuel')%nat →
  ∃ outcome,
    populate_board fuel board board_size vocabulary directions g = Some outcome ∧
    ∀ words max_length sorted, outcome = Ok (words, max_length) →
      sorted ≡ₚ words →
      ∃ st,
        rows_loop fuel' sorted n_words_per_row max_length display (MkRows [] [] 0)
        = Some st ∧
        Forall (Forall (λ entry, Z.of_nat (String.length entry) = max_length + 2))
          (word_rows st).
Proof.
  intros Hfuel Hk Hfuel'.
  destruct (populate_board_is_Some fuel board board_size vocabulary directions g Hfuel)
    as [outcome Hrun].
  exists outcome. split; [done|]. intros words max_length sorted -> Hsorted.
  apply populate_board_outcome_Ok in Hrun as (st & Hrun & <- & <-).
  pose proof (populate_board_run_max_length _ _ _ _ _ _ _ Hrun) as (Hle & _).
  apply for_words_sublist in Hrun as (ws & Hws & Hsub). simpl in Hws. subst ws.
  apply sublist_length in Hsub.
  apply rows_aligned; [done| |by rewrite Hsorted].
  rewrite Hsorted. lia.
Qed.

Lemma populate_board_then_format_aligned_witness :
  (Z.to_nat (4 - 1) * Z.to_nat (4 - 1) ≤ 9)%nat ∧ 0 < 7 ∧
  (length example_vocabulary ≤ 3)%nat ∧
  ∃ outcome,
    populate_board 9 (init_board 4) 4 example_vocabulary create_all_directions
      example_tape = Some outcome ∧
    ∀ words max_length sorted, outcome = Ok (words, max_length) →
      sorted ≡ₚ words →
      ∃ st,
        rows_loop 3 sorted 7 max_length true (MkRows [] [] 0) = Some st ∧
        Forall (Forall (λ entry, Z.of_nat (String.length entry) = max_length + 2))
          (word_rows st).
Proof.
  split_and!; [le_by_computation|lia|le_by_computation|].
  apply (populate_board_then_format_aligned 9 3 (init_board 4) 4 example_vocabulary
           create_all_directions example_tape 7 true);
    [le_by_computation|lia|le_by_computation].
Defined.

Lemma filled_board_exists (board : list (list (option ascii))) (P : ascii → Prop) :
  Forall (Forall (λ cell, ∃ ch, cell = Some ch ∧ P ch)) board →
  ∃ filled : list (list ascii),
    board = (λ row : list ascii, Some <$> row) <$> filled ∧ Forall (Forall P) filled.
Proof.
  induction 1 as [|board_row board Hrow Hboard (filled & -> & Hfilled)].
  { by exists []. }
  assert (∃ row, board_row = Some <$> row ∧ Forall P row) as (row & -> & HP).
  { clear -Hrow. induction Hrow as [|cell cells (ch & -> & Hch) _ (row & -> & HP)].
    - by exists [].
    - exists (ch :: row). split; [done|]. by constructor. }
  exists (row :: filled). split; [done|]. by constructor.
Qed.

(** X20: the board text of [main].  The generation steps of [main] return
    a 20×20 board without empty cell, and the text [board_to_heredoc]
    gives for it is 799 characters long: 20 lines of 39 characters, the
    letter of cell (r, c), one of A..Z, at index 40·r + 2·c. *)
Theorem main_board_text `{RandomSource G} (fuel : nat) (g : G) :
  (361 ≤ fuel)%nat →
  ∃ board words max_length g' (filled : list (list ascii)),
    main fuel g = Some (Ok (board, words, max_length, g')) ∧
    board = (λ row : list ascii, Some <$> row) <$> filled ∧
    String.length (board_to_heredoc filled) = 799%nat ∧
    ∀ r c, (r < 20)%nat → (c < 20)%nat →
      ∃ ch, String.get (40 * r + 2 * c) (board_to_heredoc filled) = Some ch ∧
            is_upper_letter ch ∧
            board_cell board (Z.of_nat r, Z.of_nat c) = Some (Some ch).
Proof.
  intros Hfuel.
  destruct (main_grid_all_upper fuel g Hfuel)
    as (board & words & max_length & g' & Hmain & [Hlen Hrows] & Hupper).
  destruct (filled_board_exists board is_upper_letter Hupper)
    as (filled & -> & Hfilled).
  exists ((λ row : list ascii, Some <$> row) <$> filled), words, max_length, g', filled.
  rewrite length_fmap in Hlen. change (Z.to_nat 20) with 20%nat in *.
  assert (Forall (λ row : list ascii, length row = 20%nat) filled) as Hcols.
  { rewrite Forall_fmap in Hrows. eapply Forall_impl; [exact Hrows|].
    intros row Hrow. simpl in Hrow. by rewrite length_fmap in Hrow. }
  destruct (heredoc_layout filled 20 ltac:(lia) Hcols)
    as (Htext & Hcell & _).
  split_and!; [done|done| |].
  - rewrite Htext by (intros ->; simpl in Hlen; lia). rewrite Hlen. done.
  - intros r c Hr Hc.
    destruct (lookup_lt_is_Some_2 filled r) as [row Hrow]; [lia|].
    rewrite Forall_lookup in Hcols. pose proof (Hcols _ _ Hrow) as Hlen_row.
    destruct (lookup_lt_is_Some_2 row c) as [ch Hch]; [lia|].
    exists ch. split_and!.
    + replace (40 * r + 2 * c)%nat with (r * (2 * 20) + 2 * c)%nat by lia.
      rewrite Hcell by done. rewrite Hrow. done.
    + rewrite Forall_lookup in Hfilled. pose proof (Hfilled _ _ Hrow) as Hrow_upper.
      rewrite Forall_lookup in Hrow_upper. by eapply Hrow_upper.
    + unfold board_cell. simpl. rewrite !Nat2Z.id, list_lookup_fmap, Hrow. simpl.
      by rewrite list_lookup_fmap, Hch.
Qed.

Lemma main_board_text_witness :
  (361 ≤ 361)%nat ∧
  ∃ board words max_length g' (filled : list (list ascii)),
    main 361 example_tape = Some (Ok (board, words, max_length, g')) ∧
    board = (λ row : list ascii, Some <$> row) <$> filled ∧
    String.length (board_to_heredoc filled) = 799%nat.
Proof.
  split; [lia|].
  destruct (main_board_text 361 example_tape)
    as (board & words & max_length & g' & filled & Hmain & Hboard & Hlen & _); [lia|].
  exists board, words, max_length, g', filled.
  exact (conj Hmain (conj Hboard Hlen)).
Defined.
